(** * MindMap: a shallow embedding of the layout, routing and tree core of
    [src/MindMap.py] and the properties of its specification. *)

From Stdlib Require Import ZArith QArith Qabs Qminmax List Bool String Lia Sorting.Permutation Sorting.Sorted.
From Stdlib Require Import Reals Lra.
From Stdlib Require Lqa.
Import ListNotations.

Open Scope Z_scope.

(** ** Python exceptions and a small error monad *)

(** [KeyError] is a failed [dict[k]] lookup; [OutOfFuel] stands for a loop or
    a recursion that did not finish within the given number of steps (an
    unbounded loop, or CPython's [RecursionError]). *)
Inductive Exn := KeyError | OutOfFuel.

Definition Res (A : Type) := (A + Exn)%type.
Definition ok {A} (a : A) : Res A := inl a.
Definition raise {A} (e : Exn) : Res A := inr e.
Definition bind {A B} (m : Res A) (f : A -> Res B) : Res B :=
  match m with inl a => f a | inr e => inr e end.
Notation "'let*' x := m 'in' f" := (bind m (fun x => f))
  (at level 200, x name, m at level 100, f at level 200).
Notation "'let*' ' p := m 'in' f" := (bind m (fun x => match x with p => f end))
  (at level 200, p pattern, m at level 100, f at level 200).

Fixpoint mfold {A B} (f : A -> B -> Res A) (a : A) (l : list B) : Res A :=
  match l with
  | [] => ok a
  | x :: l' => let* a' := f a x in mfold f a' l'
  end.

(** ** Python dictionaries: insertion-ordered association lists *)

Class KeyEq (K : Type) := {
  keq : K -> K -> bool;
  keq_spec : forall a b, keq a b = true <-> a = b
}.

#[export] Instance KeyEq_Z : KeyEq Z := { keq := Z.eqb; keq_spec := Z.eqb_eq }.

Lemma keq_pair_spec (a b : Z * Z) :
  (Z.eqb (fst a) (fst b) && Z.eqb (snd a) (snd b))%bool = true <-> a = b.
Proof.
  destruct a as [a1 a2], b as [b1 b2]; simpl.
  rewrite andb_true_iff, !Z.eqb_eq. split; [intros [-> ->]; auto | intros E; inversion E; auto].
Qed.

#[export] Instance KeyEq_ZZ : KeyEq (Z * Z) :=
  { keq := fun a b => (Z.eqb (fst a) (fst b) && Z.eqb (snd a) (snd b))%bool;
    keq_spec := keq_pair_spec }.

Module Dict.
Section Dict.
Context {K V : Type} `{KeyEq K}.

Definition t := list (K * V).

(** [d.get(k)] *)
Fixpoint get (d : t) (k : K) : option V :=
  match d with
  | [] => None
  | (k', v) :: d' => if keq k' k then Some v else get d' k
  end.

Definition mem (d : t) (k : K) : bool := existsb (fun kv => keq (fst kv) k) d.

(** [d[k] = v]: an existing key keeps its place, a new key goes last. *)
Definition set (d : t) (k : K) (v : V) : t :=
  if mem d k then map (fun kv => if keq (fst kv) k then (k, v) else kv) d
  else d ++ [(k, v)].

(** [d.pop(k, None)] *)
Definition pop (d : t) (k : K) : t := filter (fun kv => negb (keq (fst kv) k)) d.

(** [d.setdefault(k, v)] as a statement *)
Definition setdefault (d : t) (k : K) (v : V) : t := if mem d k then d else d ++ [(k, v)].

(** [d[k]] *)
Definition lookup (d : t) (k : K) : Res V :=
  match get d k with Some v => ok v | None => raise KeyError end.

Definition keys (d : t) : list K := map fst d.

End Dict.
End Dict.
Arguments Dict.t K V : clear implicits.

(** ** Configuration constants *)

Definition NODE_W : Z := 160.
Definition NODE_H : Z := 56.
Definition HORIZ_GAP : Z := 60.
Definition VERT_GAP : Z := 36.
Definition NODE_MARGIN : Z := 18.

Definition PALETTE_COLORS : list string :=
  ["#B9C2FF"; "#FFB3BE"; "#FFF49A"; "#C6FFB0"; "#B7F0FF";
   "#DDB096"; "#B5A0DD"; "#9DDDD0"; "#DDA0B7"; "#B1DD53"]%string.
Definition LEVEL_COLORS := PALETTE_COLORS.

(** ** Data model *)

(** A node dict.  Loaded nodes carry no ["w"]/["h"] keys, hence the options;
    ["fill"] is [str | None]. *)
Record Node := mkNode {
  text : string;
  x : Q;
  y : Q;
  children : list Z;
  fill : option string;
  custom : bool;
  w : option Q;
  h : option Q
}.

(** The part of [Workspace] the core reads and writes (canvas items,
    selection and dragging state are UI). *)
Record Workspace := mkWs {
  nodes : Dict.t Z Node;
  parent : Dict.t Z (option Z);
  edge_offsets : Dict.t (Z * Z) Q;
  palette_index : Z;
  root_id : option Z;
  next_id : Z;
  scale : Q;
  offset_x : Q;
  offset_y : Q
}.

Definition set_nodes ws ns := mkWs ns (parent ws) (edge_offsets ws) (palette_index ws)
  (root_id ws) (next_id ws) (scale ws) (offset_x ws) (offset_y ws).
Definition set_parent ws p := mkWs (nodes ws) p (edge_offsets ws) (palette_index ws)
  (root_id ws) (next_id ws) (scale ws) (offset_x ws) (offset_y ws).
Definition set_edge_offsets ws e := mkWs (nodes ws) (parent ws) e (palette_index ws)
  (root_id ws) (next_id ws) (scale ws) (offset_x ws) (offset_y ws).
Definition set_root_id ws r := mkWs (nodes ws) (parent ws) (edge_offsets ws) (palette_index ws)
  r (next_id ws) (scale ws) (offset_x ws) (offset_y ws).

Definition with_xy (n : Node) (x' y' : Q) : Node :=
  mkNode (text n) x' y' (children n) (fill n) (custom n) (w n) (h n).
Definition with_children (n : Node) (cs : list Z) : Node :=
  mkNode (text n) (x n) (y n) cs (fill n) (custom n) (w n) (h n).
Definition with_fill (n : Node) (f : option string) : Node :=
  mkNode (text n) (x n) (y n) (children n) f (custom n) (w n) (h n).

(** [self.parent.get(nid)]: absent key and [None] value both give [None]. *)
Definition parent_of (ws : Workspace) (nid : Z) : option Z :=
  match Dict.get (parent ws) nid with Some p => p | None => None end.

(** ** Placement helpers (_find_free_position, _is_position_free) *)

Definition qlt (a b : Q) : bool := negb (Qle_bool b a).

Definition is_position_free (ns : Dict.t Z Node) (px py : Q) : bool :=
  match ns with
  | [] => true
  | _ =>
    let threshold_x := inject_Z (NODE_W + NODE_MARGIN) in
    let threshold_y := inject_Z (NODE_H + NODE_MARGIN) in
    forallb (fun kv => let n := snd kv in
      negb (qlt (Qabs (px - x n)%Q) threshold_x && qlt (Qabs (py - y n)%Q) threshold_y))
      ns
  end.

(** [range(a, b)] over Z *)
Definition zrange (a b : Z) : list Z :=
  map (fun i => a + Z.of_nat i) (seq 0 (Z.to_nat (b - a))).

(** first [Some] produced by [f] along [l] (a [for] loop with [return]) *)
Fixpoint first_some {A B} (f : A -> option B) (l : list A) : option B :=
  match l with
  | [] => None
  | a :: l' => match f a with Some b => Some b | None => first_some f l' end
  end.

Definition find_free_position (ns : Dict.t Z Node) (px py : Q) : Q * Q :=
  if is_position_free ns px py then (px, py) else
  let step_x := inject_Z (NODE_W + HORIZ_GAP) in
  let step_y := inject_Z (NODE_H + VERT_GAP) in
  let found :=
    first_some (fun radius =>
      first_some (fun dx =>
        first_some (fun dy =>
          if negb (Z.abs dx =? radius) && negb (Z.abs dy =? radius) then None else
          let candidate_x := (px + inject_Z dx * step_x)%Q in
          let candidate_y := (py + inject_Z dy * step_y)%Q in
          if is_position_free ns candidate_x candidate_y
          then Some (candidate_x, candidate_y) else None)
        (zrange (- radius) (radius + 1)))
      (zrange (- radius) (radius + 1)))
    (zrange 1 9) in
  match found with
  | Some p => p
  | None => ((px + 10 * step_x)%Q, (py + 10 * step_y)%Q)
  end.

(** The cells the ring search visits, in loop order: [(radius, dx, dy)]. *)
Definition ring_cells : list (Z * Z * Z) :=
  flat_map (fun radius =>
    flat_map (fun dx => map (fun dy => (radius, dx, dy)) (zrange (- radius) (radius + 1)))
      (zrange (- radius) (radius + 1)))
    (zrange 1 9).

(** ** Generic lemmas on the loop helpers *)

Lemma first_some_app {A B} (f : A -> option B) l1 l2 :
  first_some f (l1 ++ l2) =
  match first_some f l1 with Some b => Some b | None => first_some f l2 end.
Proof. induction l1 as [|a l1 IH]; simpl; [reflexivity|]. destruct (f a); auto. Qed.

Lemma first_some_ext {A B} (f g : A -> option B) l :
  (forall a, f a = g a) -> first_some f l = first_some g l.
Proof. intros E. induction l as [|a l IH]; simpl; [reflexivity|]. rewrite E, IH; reflexivity. Qed.

Lemma first_some_map {A B C} (f : B -> option C) (g : A -> B) l :
  first_some f (map g l) = first_some (fun a => f (g a)) l.
Proof. induction l as [|a l IH]; simpl; [reflexivity|]. rewrite IH; reflexivity. Qed.

Lemma first_some_flat_map {A B C} (f : B -> option C) (g : A -> list B) l :
  first_some f (flat_map g l) = first_some (fun a => first_some f (g a)) l.
Proof.
  induction l as [|a l IH]; simpl; [reflexivity|].
  rewrite first_some_app, IH. reflexivity.
Qed.

Lemma first_some_spec {A B} (f : A -> option B) l b :
  first_some f l = Some b ->
  exists pre a post, l = pre ++ a :: post /\ f a = Some b /\
    forall a', In a' pre -> f a' = None.
Proof.
  induction l as [|a l IH]; simpl; [discriminate|].
  destruct (f a) eqn:Fa.
  - intros E; inversion E; subst. exists [], a, l. repeat split; auto. intros _ [].
  - intros E. destruct (IH E) as (pre & a' & post & -> & Fa' & Hpre).
    exists (a :: pre), a', post. repeat split; auto.
    intros a'' [<- | H]; auto.
Qed.

Lemma first_some_some {A B} (f : A -> option B) l a :
  In a l -> f a <> None -> first_some f l <> None.
Proof.
  induction l as [|a0 l IH]; simpl; [tauto|].
  intros [-> | H] Fa.
  - destruct (f a); [discriminate | contradiction].
  - destruct (f a0); [discriminate | auto].
Qed.

Lemma in_zrange i a b : In i (zrange a b) <-> a <= i < b.
Proof.
  unfold zrange. rewrite in_map_iff. split.
  - intros (k & <- & Hk). apply in_seq in Hk. lia.
  - intros H. exists (Z.to_nat (i - a)). split; [lia|]. apply in_seq. lia.
Qed.

Lemma qlt_iff a b : qlt a b = true <-> (a < b)%Q.
Proof.
  unfold qlt. rewrite negb_true_iff. split.
  - intros H. apply Qnot_le_lt. intros Hle. apply Qle_bool_iff in Hle. congruence.
  - intros H. destruct (Qle_bool b a) eqn:E; auto. apply Qle_bool_iff in E.
    exfalso. apply (Qlt_not_le a b); auto.
Qed.

Lemma is_position_free_single (i : Z) (n : Node) px py :
  is_position_free [(i, n)] px py = true <->
  ~ ((Qabs (px - x n) < 178)%Q /\ (Qabs (py - y n) < 74)%Q).
Proof.
  unfold is_position_free, forallb. cbn [snd].
  change (inject_Z (NODE_W + NODE_MARGIN)) with (178 # 1)%Q.
  change (inject_Z (NODE_H + NODE_MARGIN)) with (74 # 1)%Q.
  rewrite andb_true_r, negb_true_iff.
  rewrite andb_false_iff, <- !not_true_iff_false, !qlt_iff.
  split.
  - intros [H|H] [H1 H2]; auto.
  - intros H. destruct (Qlt_le_dec (Qabs (px - x n)) (178 # 1)) as [H1|H1].
    + right. intros H2. apply H; split; auto.
    + left. intros H2. apply (Qlt_not_le _ _ H2 H1).
Qed.

(** The body of the innermost loop of [_find_free_position] on one cell. *)
Definition ring_check (ns : Dict.t Z Node) (px py : Q) (c : Z * Z * Z) : option (Q * Q) :=
  let '(radius, dx, dy) := c in
  if negb (Z.abs dx =? radius) && negb (Z.abs dy =? radius) then None else
  let candidate_x := (px + inject_Z dx * inject_Z (NODE_W + HORIZ_GAP))%Q in
  let candidate_y := (py + inject_Z dy * inject_Z (NODE_H + VERT_GAP))%Q in
  if is_position_free ns candidate_x candidate_y
  then Some (candidate_x, candidate_y) else None.

Lemma find_free_position_ring ns px py :
  is_position_free ns px py = false ->
  find_free_position ns px py =
  match first_some (ring_check ns px py) ring_cells with
  | Some p => p
  | None => ((px + 10 * inject_Z (NODE_W + HORIZ_GAP))%Q, (py + 10 * inject_Z (NODE_H + VERT_GAP))%Q)
  end.
Proof.
  intros F. unfold find_free_position. rewrite F. unfold ring_cells.
  rewrite first_some_flat_map.
  erewrite first_some_ext; [reflexivity|]. intros radius. simpl.
  rewrite first_some_flat_map. apply first_some_ext. intros dx.
  rewrite first_some_map. apply first_some_ext. intros dy. reflexivity.
Qed.

Lemma in_ring_cells radius dx dy :
  In (radius, dx, dy) ring_cells <->
  1 <= radius < 9 /\ - radius <= dx < radius + 1 /\ - radius <= dy < radius + 1.
Proof.
  unfold ring_cells. rewrite in_flat_map. split.
  - intros (r & Hr & H). rewrite in_flat_map in H. destruct H as (d & Hd & H).
    rewrite in_map_iff in H. destruct H as (e & E & He). inversion E; subst.
    rewrite in_zrange in Hr, Hd, He. lia.
  - intros (H1 & H2 & H3). exists radius. rewrite in_zrange. split; [lia|].
    rewrite in_flat_map. exists dx. rewrite in_zrange. split; [lia|].
    rewrite in_map_iff. exists dy. rewrite in_zrange. split; [reflexivity | lia].
Qed.

Lemma Qabs_shift_zero (a b : Q) : (b == 0)%Q -> (Qabs (a - b) == Qabs a)%Q.
Proof. intros Hb. apply Qabs_wd. rewrite Hb. ring. Qed.

(** ** Coordinate helpers *)

Definition to_canvas_point (ws : Workspace) (px py : Q) : Q * Q :=
  (offset_x ws + px * scale ws, offset_y ws + py * scale ws)%Q.

Definition from_canvas_point (ws : Workspace) (px py : Q) : Q * Q :=
  if Qeq_bool (scale ws) 0 then (px, py)
  else ((px - offset_x ws) / scale ws, (py - offset_y ws) / scale ws)%Q.

(** [_node_center]: [self.nodes[nid]] raises [KeyError] on a missing id. *)
Definition node_center (ws : Workspace) (nid : Z) : Res (Q * Q) :=
  let* n := Dict.lookup (nodes ws) nid in
  ok (to_canvas_point ws (x n) (y n)).

(** ** Edge routing (redraw, _render_edge and the crossing test) *)

Definition pt := (Q * Q)%type.

Record DrawnPath := mkPath { points : list pt; pstart : pt; pend : pt }.

(** The sampled cubic; coordinates are kept in lowest terms. *)
Definition sample_edge_points (start cp1 cp2 end_ : pt) (steps : Z) : list pt :=
  let steps := Z.max steps 2 in
  map (fun i =>
    let t := (inject_Z i / inject_Z steps)%Q in
    let mt := (1 - t)%Q in
    (Qred (Qpower mt 3 * fst start + 3 * Qpower mt 2 * t * fst cp1
           + 3 * mt * Qpower t 2 * fst cp2 + Qpower t 3 * fst end_)%Q,
     Qred (Qpower mt 3 * snd start + 3 * Qpower mt 2 * t * snd cp1
           + 3 * mt * Qpower t 2 * snd cp2 + Qpower t 3 * snd end_)%Q))
    (zrange 0 (steps + 1)).

Definition qle (a b : Q) : bool := Qle_bool a b.

Definition points_close (a b : pt) (tol : Q) : bool :=
  qle (Qabs (fst a - fst b)) tol && qle (Qabs (snd a - snd b)) tol.

Definition shares_endpoint (start_a end_a start_b end_b : pt) : bool :=
  let tol := 6%Q in
  points_close start_a start_b tol || points_close start_a end_b tol
  || points_close end_a start_b tol || points_close end_a end_b tol.

Definition segments_share_endpoint (a_start a_end b_start b_end : pt) : bool :=
  let tol := (3 # 2)%Q in
  points_close a_start b_start tol || points_close a_start b_end tol
  || points_close a_end b_start tol || points_close a_end b_end tol.

Definition orientation (a b c : pt) : Q :=
  ((fst b - fst a) * (snd c - snd a) - (snd b - snd a) * (fst c - fst a))%Q.

Definition eps6 : Q := 1 # 1000000.

Definition on_segment (a b c : pt) : bool :=
  qle (Qmin (fst a) (fst c) - eps6) (fst b) && qle (fst b) (Qmax (fst a) (fst c) + eps6)
  && qle (Qmin (snd a) (snd c) - eps6) (snd b) && qle (snd b) (Qmax (snd a) (snd c) + eps6).

Definition segments_intersect (p1 p2 q1 q2 : pt) : bool :=
  let o1 := orientation p1 p2 q1 in
  let o2 := orientation p1 p2 q2 in
  let o3 := orientation q1 q2 p1 in
  let o4 := orientation q1 q2 p2 in
  let tol := eps6 in
  ((qlt tol o1 && qlt o2 (- tol)) || (qlt o1 (- tol) && qlt tol o2)) &&
    ((qlt tol o3 && qlt o4 (- tol)) || (qlt o3 (- tol) && qlt tol o4))
  || (qle (Qabs o1) tol && on_segment p1 q1 p2)
  || (qle (Qabs o2) tol && on_segment p1 q2 p2)
  || (qle (Qabs o3) tol && on_segment q1 p1 q2)
  || (qle (Qabs o4) tol && on_segment q1 p2 q2).

(** [zip(l, l[1:])] *)
Definition segments (l : list pt) : list (pt * pt) := combine l (tl l).

Definition paths_cross (a_points b_points : list pt) : bool :=
  existsb (fun sa =>
    existsb (fun sb =>
      negb (segments_share_endpoint (fst sa) (snd sa) (fst sb) (snd sb))
      && segments_intersect (fst sa) (snd sa) (fst sb) (snd sb))
      (segments b_points))
    (segments a_points).

Definition path_intersects (pts : list pt) (existing : list DrawnPath) (start end_ : pt) : bool :=
  existsb (fun info =>
    negb (shares_endpoint start end_ (pstart info) (pend info))
    && paths_cross pts (points info))
    existing.

(** One iteration of the loop of [_edge_offset_candidates]: a candidate
    within 1e-6 of the previous one is dropped. *)
Definition add_candidate (base : Q) (offsets : list Q) (step : Q) : list Q :=
  let candidate := (base + step)%Q in
  match rev offsets with
  | [] => offsets ++ [candidate]
  | last_ :: _ => if qlt eps6 (Qabs (last_ - candidate)) then offsets ++ [candidate] else offsets
  end.

Definition edge_offset_candidates (base : Q) : list Q :=
  let steps := [0; 20; -20; 40; -40; 60; -60; 80; -80]%Q in
  fold_left (add_candidate base) steps [].

(** [self._edges()]: every [(pid, cid)] of every children list, in node order. *)
Definition edges (ws : Workspace) : list (Z * Z) :=
  flat_map (fun kv => map (fun cid => (fst kv, cid)) (children (snd kv))) (nodes ws).

Section Routing.

(** The geometric kernels of the router: [_edge_exit_point] (square roots)
    and [_edge_control_points] (square roots, [copysign], powers [1.3]).
    The router is modelled for any such functions; the exit point itself is
    modelled over the reals further down. *)
Variable edge_exit_point : Workspace -> Z -> Q -> Q -> pt.
Variable edge_control_points : Workspace -> Z -> Z -> pt -> pt -> Q -> pt * pt.

(** The two ends of the edge: the exit points, nudged toward the centres
    when they (nearly) coincide. *)
Definition edge_ends (ws : Workspace) (pid cid : Z) (px py cx cy : Q) : pt * pt :=
  let start := edge_exit_point ws pid cx cy in
  let end_ := edge_exit_point ws cid px py in
  if qlt (Qabs (fst start - fst end_) + Qabs (snd start - snd end_)) 6
  then (((fst start * (9 # 10) + px * (1 # 10))%Q, (snd start * (9 # 10) + py * (1 # 10))%Q),
        ((fst end_ * (9 # 10) + cx * (1 # 10))%Q, (snd end_ * (9 # 10) + cy * (1 # 10))%Q))
  else (start, end_).

(** One attempt of the candidate loop: the sampled curve for [offset], kept
    when it crosses no edge drawn so far. *)
Definition try_offset (ws : Workspace) (pid cid : Z) (start end_ : pt)
  (drawn_paths : list DrawnPath) (offset : Q) : option (list pt * Q) :=
  let '(cp1, cp2) := edge_control_points ws pid cid start end_ offset in
  let pts := sample_edge_points start cp1 cp2 end_ 32 in
  if negb (path_intersects pts drawn_paths start end_) then Some (pts, offset) else None.

Definition render_edge (ws : Workspace) (pid cid : Z) (drawn_paths : list DrawnPath)
  : Res (Workspace * list DrawnPath) :=
  let* '(px, py) := node_center ws pid in
  let* '(cx, cy) := node_center ws cid in
  let '(start, end_) := edge_ends ws pid cid px py cx cy in
  let base_offset := match Dict.get (edge_offsets ws) (pid, cid) with Some o => o | None => 0%Q end in
  let candidates := edge_offset_candidates base_offset in
  let '(chosen_points, chosen_offset) :=
    match first_some (try_offset ws pid cid start end_ drawn_paths) candidates with
    | Some r => r
    | None =>
      let fallback_offset := last candidates base_offset in
      let '(cp1, cp2) := edge_control_points ws pid cid start end_ fallback_offset in
      (sample_edge_points start cp1 cp2 end_ 32, fallback_offset)
    end in
  let ws' := set_edge_offsets ws (Dict.set (edge_offsets ws) (pid, cid) chosen_offset) in
  ok (ws', drawn_paths ++ [mkPath chosen_points start end_]).

(** [redraw]: prune the offsets of vanished edges, then route every edge. *)
Definition redraw (ws : Workspace) : Res Workspace :=
  let es := edges ws in
  let pruned :=
    fold_left (fun offs key =>
      if existsb (keq key) es then offs else Dict.pop offs key)
      (Dict.keys (edge_offsets ws)) (edge_offsets ws) in
  let ws := set_edge_offsets ws pruned in
  let* '(ws, _) :=
    mfold (fun acc e => render_edge (fst acc) (fst e) (snd e) (snd acc)) (ws, []) es in
  ok ws.

End Routing.

(** ** Lemmas on the router *)

Lemma first_some_none {A B} (f : A -> option B) l :
  first_some f l = None -> forall a, In a l -> f a = None.
Proof.
  induction l as [|a0 l IH]; simpl; [tauto|].
  destruct (f a0) eqn:E; [discriminate|]. intros Hn a [<- | Ha]; auto.
Qed.

Lemma qlt_gap (base a b : Q) :
  qlt eps6 (Qabs (base + a - (base + b))) = qlt eps6 (Qabs (a - b)).
Proof.
  assert (E : (Qabs (base + a - (base + b)) == Qabs (a - b))%Q) by (apply Qabs_wd; ring).
  destruct (qlt eps6 (Qabs (a - b))) eqn:H.
  - apply qlt_iff in H. apply qlt_iff. rewrite E. exact H.
  - apply not_true_iff_false. rewrite qlt_iff. rewrite E. rewrite <- qlt_iff. congruence.
Qed.

Lemma add_candidate_snoc base l a b :
  qlt eps6 (Qabs (a - b)) = true ->
  add_candidate base (l ++ [(base + a)%Q]) b = l ++ [(base + a)%Q; (base + b)%Q].
Proof.
  intros H. unfold add_candidate. rewrite rev_app_distr. cbn [rev app].
  rewrite qlt_gap, H, <- app_assoc. reflexivity.
Qed.

Lemma edge_offset_candidates_eq (base : Q) :
  edge_offset_candidates base =
  [base + 0; base + 20; base + -20; base + 40; base + -40;
   base + 60; base + -60; base + 80; base + -80]%Q.
Proof.
  unfold edge_offset_candidates. cbn [fold_left].
  change (add_candidate base [] 0) with ([] ++ [(base + 0)%Q]).
  rewrite add_candidate_snoc by reflexivity.
  change ([] ++ [(base + 0)%Q; (base + 20)%Q]) with ([(base + 0)%Q] ++ [(base + 20)%Q]).
  rewrite add_candidate_snoc by reflexivity.
  change ([(base + 0)%Q] ++ [(base + 20)%Q; (base + -20)%Q])
    with ([(base + 0)%Q; (base + 20)%Q] ++ [(base + -20)%Q]).
  rewrite add_candidate_snoc by reflexivity.
  change ([(base + 0)%Q; (base + 20)%Q] ++ [(base + -20)%Q; (base + 40)%Q])
    with ([(base + 0)%Q; (base + 20)%Q; (base + -20)%Q] ++ [(base + 40)%Q]).
  rewrite add_candidate_snoc by reflexivity.
  change ([(base + 0)%Q; (base + 20)%Q; (base + -20)%Q] ++ [(base + 40)%Q; (base + -40)%Q])
    with ([(base + 0)%Q; (base + 20)%Q; (base + -20)%Q; (base + 40)%Q] ++ [(base + -40)%Q]).
  rewrite add_candidate_snoc by reflexivity.
  change ([(base + 0)%Q; (base + 20)%Q; (base + -20)%Q; (base + 40)%Q] ++ [(base + -40)%Q; (base + 60)%Q])
    with ([(base + 0)%Q; (base + 20)%Q; (base + -20)%Q; (base + 40)%Q; (base + -40)%Q] ++ [(base + 60)%Q]).
  rewrite add_candidate_snoc by reflexivity.
  change ([(base + 0)%Q; (base + 20)%Q; (base + -20)%Q; (base + 40)%Q; (base + -40)%Q]
            ++ [(base + 60)%Q; (base + -60)%Q])
    with ([(base + 0)%Q; (base + 20)%Q; (base + -20)%Q; (base + 40)%Q; (base + -40)%Q; (base + 60)%Q]
            ++ [(base + -60)%Q]).
  rewrite add_candidate_snoc by reflexivity.
  change ([(base + 0)%Q; (base + 20)%Q; (base + -20)%Q; (base + 40)%Q; (base + -40)%Q; (base + 60)%Q]
            ++ [(base + -60)%Q; (base + 80)%Q])
    with ([(base + 0)%Q; (base + 20)%Q; (base + -20)%Q; (base + 40)%Q; (base + -40)%Q; (base + 60)%Q;
           (base + -60)%Q] ++ [(base + 80)%Q]).
  rewrite add_candidate_snoc by reflexivity.
  reflexivity.
Qed.

(** ** Depth and colour helpers *)

Definition default_fill_for_depth (depth : nat) : string :=
  match LEVEL_COLORS with
  | [] => "white"%string
  | _ => nth (depth mod List.length LEVEL_COLORS) LEVEL_COLORS "white"%string
  end.

(** The [while True] loop of [_node_depth], with a step budget. *)
Fixpoint node_depth_loop (ws : Workspace) (fuel : nat) (depth : nat) (current : Z)
  (visited : list Z) : Res nat :=
  match fuel with
  | O => raise OutOfFuel
  | S fuel' =>
    match parent_of ws current with
    | None => ok depth
    | Some parent_id =>
      if existsb (Z.eqb parent_id) visited then ok depth
      else node_depth_loop ws fuel' (S depth) parent_id (current :: visited)
    end
  end.

(** [_node_depth]; the budget (one more step than parent-map entries) is
    always enough, see [node_depth_terminates]. *)
Definition node_depth (ws : Workspace) (nid : Z) : Res nat :=
  node_depth_loop ws (S (List.length (parent ws))) 0 nid [].

(** [x or y] on a fill: [None] and the empty string are falsy. *)
Definition fill_or (f : option string) (dflt : unit -> Res string) : Res string :=
  match f with
  | Some s => if String.eqb s "" then dflt tt else ok s
  | None => dflt tt
  end.

(** The model part of [_draw_node] and of [_update_node_fill]:
    [fill = node.get("fill") or default_fill(node_depth(nid))]. *)
Definition refresh_fill (ws : Workspace) (nid : Z) : Res Workspace :=
  let* n := Dict.lookup (nodes ws) nid in
  let* f := fill_or (fill n) (fun _ => let* d := node_depth ws nid in ok (default_fill_for_depth d)) in
  ok (set_nodes ws (Dict.set (nodes ws) nid (with_fill n (Some f)))).

(** ** Loading a persisted document *)

(** A node of the JSON document; an absent key is [None]. *)
Record RawNode := mkRaw {
  r_text : option string;
  r_x : option Q;
  r_y : option Q;
  r_children : option (list Z);
  r_fill : option (option string);
  r_custom : option bool
}.

Record Document := mkDoc {
  d_root : option Z;
  d_next_id : option Z;
  d_nodes : list (Z * RawNode)
}.

Definition odflt {A} (d : A) (o : option A) : A := match o with Some a => a | None => d end.

Definition raw_to_node (nd : RawNode) : Node :=
  mkNode (odflt ""%string (r_text nd)) (odflt 0%Q (r_x nd)) (odflt 0%Q (r_y nd))
    (odflt [] (r_children nd)) (odflt None (r_fill nd)) (odflt false (r_custom nd)) None None.

(** [_load_data_into_current_workspace] up to (not including) its [redraw]. *)
Definition load_state (doc : Document) : Res Workspace :=
  let '(max_id, ns, par) :=
    fold_left (fun acc kv =>
      let '(max_id, ns, par) := acc in
      let nid := fst kv in
      (Z.max max_id nid, Dict.set ns nid (raw_to_node (snd kv)), Dict.set par nid None))
      (d_nodes doc) (0, [], []) in
  let par :=
    fold_left (fun par kv =>
      fold_left (fun par cid => Dict.set par cid (Some (fst kv))) (children (snd kv)) par)
      ns par in
  let fallback_next := max_id + 1 in
  let provided_next := odflt fallback_next (d_next_id doc) in
  let ws := mkWs ns par [] (Z.of_nat (List.length ns)) (d_root doc)
              (Z.max provided_next fallback_next) 1 0 0 in
  let* ws := mfold refresh_fill ws (Dict.keys ns) in
  let root := match root_id ws with
              | Some r => if Dict.mem (nodes ws) r then Some r else hd_error (Dict.keys (nodes ws))
              | None => hd_error (Dict.keys (nodes ws))
              end in
  ok (set_root_id ws root).

Definition load_data ep cp (doc : Document) : Res Workspace :=
  let* ws := load_state doc in
  redraw ep cp ws.

(** ** Dictionary lemmas *)

Section DictFacts.
Context {K V : Type} `{KeyEq K}.

Lemma keq_refl (k : K) : keq k k = true.
Proof. apply keq_spec; reflexivity. Qed.

Lemma keq_false (a b : K) : a <> b -> keq a b = false.
Proof. intros N. destruct (keq a b) eqn:E; auto. apply keq_spec in E. contradiction. Qed.

Lemma get_in_keys (d : Dict.t K V) k v : Dict.get d k = Some v -> In k (Dict.keys d).
Proof.
  induction d as [|[k' v'] d IH]; simpl; [discriminate|].
  destruct (keq k' k) eqn:E; [apply keq_spec in E; auto | auto].
Qed.

Lemma get_none_keys (d : Dict.t K V) k : ~ In k (Dict.keys d) -> Dict.get d k = None.
Proof. intros N. destruct (Dict.get d k) eqn:E; auto. exfalso. eapply N, get_in_keys; eauto. Qed.

Lemma mem_get (d : Dict.t K V) k : Dict.mem d k = true <-> exists v, Dict.get d k = Some v.
Proof.
  unfold Dict.mem. induction d as [|[k' v'] d IH]; simpl.
  - split; [discriminate | intros [? E]; discriminate].
  - destruct (keq k' k) eqn:E; simpl; [split; eauto|exact IH].
Qed.

Lemma lookup_get (d : Dict.t K V) k v : Dict.get d k = Some v -> Dict.lookup d k = ok v.
Proof. unfold Dict.lookup. intros ->. reflexivity. Qed.

Lemma lookup_ok (d : Dict.t K V) k v : Dict.lookup d k = ok v -> Dict.get d k = Some v.
Proof. unfold Dict.lookup. destruct (Dict.get d k); intros E; inversion E; auto. Qed.

Lemma get_app (d1 d2 : Dict.t K V) k :
  Dict.get (d1 ++ d2) k = match Dict.get d1 k with Some v => Some v | None => Dict.get d2 k end.
Proof. induction d1 as [|[k' v'] d1 IH]; simpl; auto. destruct (keq k' k); auto. Qed.

Lemma get_map_repl (d : Dict.t K V) k v k' :
  Dict.get (map (fun kv => if keq (fst kv) k then (k, v) else kv) d) k' =
  if keq k k' then (if Dict.mem d k then Some v else None) else Dict.get d k'.
Proof.
  unfold Dict.mem. induction d as [|[k0 v0] d IH]; simpl.
  - destruct (keq k k'); auto.
  - destruct (keq k0 k) eqn:E; simpl.
    + apply keq_spec in E; subst k0. destruct (keq k k'); auto.
    + rewrite IH. destruct (keq k k') eqn:E'.
      * apply keq_spec in E'; subst k'. rewrite E. reflexivity.
      * destruct (keq k0 k'); auto.
Qed.

Lemma get_set (d : Dict.t K V) k v k' :
  Dict.get (Dict.set d k v) k' = if keq k k' then Some v else Dict.get d k'.
Proof.
  unfold Dict.set. destruct (Dict.mem d k) eqn:M.
  - rewrite get_map_repl, M. reflexivity.
  - rewrite get_app. simpl. destruct (Dict.get d k') eqn:G; [|reflexivity].
    destruct (keq k k') eqn:E; auto. apply keq_spec in E; subst.
    assert (Dict.mem d k' = true) by (apply mem_get; eauto). congruence.
Qed.

Lemma get_set_same (d : Dict.t K V) k v : Dict.get (Dict.set d k v) k = Some v.
Proof. rewrite get_set, keq_refl. reflexivity. Qed.

Lemma get_set_other (d : Dict.t K V) k v k' : k <> k' -> Dict.get (Dict.set d k v) k' = Dict.get d k'.
Proof. intros N. rewrite get_set, keq_false; auto. Qed.

Lemma keys_set (d : Dict.t K V) k v :
  Dict.keys (Dict.set d k v) = if Dict.mem d k then Dict.keys d else Dict.keys d ++ [k].
Proof.
  unfold Dict.set, Dict.keys. destruct (Dict.mem d k) eqn:M.
  - rewrite map_map. apply map_ext. intros [k0 v0]. simpl.
    destruct (keq k0 k) eqn:E; simpl; auto. apply keq_spec in E; auto.
  - rewrite map_app. reflexivity.
Qed.

Lemma get_pop (d : Dict.t K V) k k' :
  Dict.get (Dict.pop d k) k' = if keq k k' then None else Dict.get d k'.
Proof.
  unfold Dict.pop. induction d as [|[k0 v0] d IH]; simpl.
  - destruct (keq k k'); auto.
  - destruct (keq k0 k) eqn:E; simpl.
    + apply keq_spec in E; subst k0. rewrite IH. destruct (keq k k'); auto.
    + destruct (keq k0 k') eqn:E'; auto.
      apply keq_spec in E'; subst k0. rewrite keq_false; auto.
      intros ->. rewrite keq_refl in E. discriminate.
Qed.

End DictFacts.

(** ** Termination of [_node_depth] *)

Lemma parent_of_in_keys ws c p : parent_of ws c = Some p -> In c (Dict.keys (parent ws)).
Proof.
  unfold parent_of. destruct (Dict.get (parent ws) c) eqn:G; [|discriminate].
  intros _. eapply get_in_keys; eauto.
Qed.

Lemma node_depth_loop_ok ws fuel depth current visited :
  NoDup visited ->
  incl visited (Dict.keys (parent ws)) ->
  (~ In current visited \/ exists q, parent_of ws current = Some q /\ In q visited) ->
  (List.length (Dict.keys (parent ws)) < List.length visited + fuel)%nat ->
  exists d, node_depth_loop ws fuel depth current visited = ok d.
Proof.
  revert depth current visited. induction fuel as [|fuel IH]; intros depth current visited ND Inc Cur Len.
  - exfalso. pose proof (NoDup_incl_length ND Inc). lia.
  - simpl. destruct (parent_of ws current) as [p|] eqn:P; [|eauto].
    destruct (existsb (Z.eqb p) visited) eqn:E; [eauto|].
    assert (Np : ~ In p visited).
    { intros I. assert (existsb (Z.eqb p) visited = true) by (apply existsb_exists; exists p; split; auto; apply Z.eqb_refl). congruence. }
    destruct Cur as [Nc | [q [Q Iq]]]; [|rewrite ?P in Q; inversion Q; subst; contradiction].
    apply IH.
    + constructor; auto.
    + intros a [<-|I]; [eapply parent_of_in_keys; eauto | auto].
    + destruct (Z.eq_dec p current) as [->|Ne].
      * right. exists current. split; [exact P | left; reflexivity].
      * left. intros [E'|I]; [congruence | contradiction].
    + simpl. lia.
Qed.

Lemma node_depth_terminates ws nid : exists d, node_depth ws nid = ok d.
Proof.
  unfold node_depth. apply node_depth_loop_ok.
  - constructor.
  - intros a [].
  - left. intros [].
  - unfold Dict.keys. rewrite length_map. simpl. lia.
Qed.

(** ** Loading: structure of the loaded state *)

(** The ids and children lists of the nodes, in order: what [_edges] reads. *)
Definition shape (ws : Workspace) : list (Z * list Z) :=
  map (fun kv => (fst kv, children (snd kv))) (nodes ws).

Lemma edges_shape ws :
  edges ws = flat_map (fun kc => map (fun cid => (fst kc, cid)) (snd kc)) (shape ws).
Proof. unfold edges, shape. induction (nodes ws) as [|kv l IH]; simpl; [reflexivity|]. rewrite IH. reflexivity. Qed.

Lemma mem_keys {K V} `{KeyEq K} (d : Dict.t K V) k : Dict.mem d k = true <-> In k (Dict.keys d).
Proof.
  unfold Dict.mem, Dict.keys. rewrite existsb_exists, in_map_iff.
  split; intros [kv [A B]]; exists kv; split; auto.
  - apply keq_spec in B; auto.
  - subst. apply keq_refl.
Qed.

Lemma set_fresh {K V} `{KeyEq K} (d : Dict.t K V) k v :
  ~ In k (Dict.keys d) -> Dict.set d k v = d ++ [(k, v)].
Proof.
  intros N. unfold Dict.set. destruct (Dict.mem d k) eqn:M; auto.
  apply mem_keys in M. contradiction.
Qed.

Lemma load_nodes_fold (l : list (Z * RawNode)) m ns par :
  NoDup (map fst l) ->
  (forall k, In k (map fst l) -> ~ In k (Dict.keys ns) /\ ~ In k (Dict.keys par)) ->
  fold_left (fun acc kv =>
      let '(max_id, ns, par) := acc in
      let nid := fst kv in
      (Z.max max_id nid, Dict.set ns nid (raw_to_node (snd kv)), Dict.set par nid None))
      l (m, ns, par) =
  (fold_left (fun m kv => Z.max m (fst kv)) l m,
   ns ++ map (fun kv => (fst kv, raw_to_node (snd kv))) l,
   par ++ map (fun kv => (fst kv, @None Z)) l).
Proof.
  revert m ns par. induction l as [|[k r] l IH]; intros m ns par ND F; simpl.
  - rewrite !app_nil_r. reflexivity.
  - inversion ND; subst. destruct (F k (or_introl eq_refl)) as [F1 F2].
    rewrite (set_fresh ns), (set_fresh par) by auto. rewrite IH; auto.
    2:{ intros k' I. destruct (F k' (or_intror I)) as [G1 G2].
        unfold Dict.keys in *. rewrite !map_app. simpl.
        split; rewrite in_app_iff; intros [A|[A|[]]]; subst; auto. }
    rewrite <- !app_assoc. reflexivity.
Qed.

Lemma inner_fold_get (q : Z) cs (par : Dict.t Z (option Z)) c :
  Dict.get (fold_left (fun par cid => Dict.set par cid (Some q)) cs par) c =
  if existsb (Z.eqb c) cs then Some (Some q) else Dict.get par c.
Proof.
  revert par. induction cs as [|c0 cs IH]; intros par; simpl; auto.
  rewrite IH, get_set. cbn [keq KeyEq_Z existsb].
  destruct (Z.eqb c c0) eqn:E; simpl.
  - apply Z.eqb_eq in E; subst. rewrite Z.eqb_refl. destruct (existsb (Z.eqb c0) cs); auto.
  - rewrite Z.eqb_sym, E. reflexivity.
Qed.

Definition parents_fold (ns : Dict.t Z Node) (par : Dict.t Z (option Z)) :=
  fold_left (fun par kv =>
    fold_left (fun par cid => Dict.set par cid (Some (fst kv))) (children (snd kv)) par) ns par.

Lemma parents_fold_nolister ns par c :
  (forall q n, In (q, n) ns -> ~ In c (children n)) ->
  Dict.get (parents_fold ns par) c = Dict.get par c.
Proof.
  unfold parents_fold. revert par. induction ns as [|[q n] ns IH]; intros par F; simpl; auto.
  rewrite IH by (intros; eapply F; right; eauto).
  rewrite inner_fold_get. destruct (existsb (Z.eqb c) (children n)) eqn:E; auto.
  exfalso. apply existsb_exists in E as [c' [I E]]. apply Z.eqb_eq in E; subst.
  eapply F; [left; reflexivity | exact I].
Qed.

Lemma parents_fold_lister ns par c :
  (exists q n, In (q, n) ns /\ In c (children n)) ->
  exists q n, In (q, n) ns /\ In c (children n) /\ Dict.get (parents_fold ns par) c = Some (Some q).
Proof.
  unfold parents_fold. revert par. induction ns as [|[q0 n0] ns IH]; intros par L; simpl.
  - destruct L as [? [? [[] _]]].
  - destruct (existsb (fun kv => existsb (Z.eqb c) (children (snd kv))) ns) eqn:E.
    + apply existsb_exists in E as [[q n] [I E]]. apply existsb_exists in E as [c' [I' E]].
      apply Z.eqb_eq in E; subst c'.
      destruct (IH (fold_left (fun par cid => Dict.set par cid (Some q0)) (children n0) par))
        as [q' [n' [A [B C]]]]; [exists q, n; auto|].
      exists q', n'. auto.
    + assert (NL : forall q n, In (q, n) ns -> ~ In c (children n)).
      { intros q n I I'. assert (existsb (fun kv => existsb (Z.eqb c) (children (snd kv))) ns = true); [|congruence].
        apply existsb_exists. exists (q, n). split; auto. apply existsb_exists. exists c. split; auto. apply Z.eqb_refl. }
      destruct L as [q [n [[Eq|I] I']]].
      * inversion Eq; subst q0 n0. exists q, n. split; [left; reflexivity|split; auto].
        pose proof (parents_fold_nolister ns (fold_left (fun par cid => Dict.set par cid (Some q)) (children n) par) c NL) as G.
        unfold parents_fold in G. simpl in G. rewrite G, inner_fold_get.
        replace (existsb (Z.eqb c) (children n)) with true; auto.
        symmetry. apply existsb_exists. exists c. split; auto. apply Z.eqb_refl.
      * exfalso. eapply NL; eauto.
Qed.

Lemma In_get {K V} `{KeyEq K} (d : Dict.t K V) k v :
  NoDup (Dict.keys d) -> In (k, v) d -> Dict.get d k = Some v.
Proof.
  unfold Dict.keys. induction d as [|[k0 v0] d IH]; simpl; intros ND I; [destruct I|].
  inversion ND; subst. destruct I as [E|I].
  - inversion E; subst. rewrite keq_refl. reflexivity.
  - rewrite keq_false; auto. intros ->. apply H2. apply in_map_iff. exists (k, v); auto.
Qed.

Lemma keys_shape ws : Dict.keys (nodes ws) = map fst (shape ws).
Proof. unfold shape, Dict.keys. rewrite map_map. reflexivity. Qed.

Lemma refresh_fill_shape ws nid :
  NoDup (Dict.keys (nodes ws)) -> In nid (Dict.keys (nodes ws)) ->
  exists ws', refresh_fill ws nid = ok ws' /\ shape ws' = shape ws /\ parent ws' = parent ws.
Proof.
  intros ND I. unfold refresh_fill.
  destruct (Dict.get (nodes ws) nid) as [n|] eqn:G.
  2:{ destruct (proj1 (mem_get _ _) (proj2 (mem_keys _ _) I)) as [v V]. congruence. }
  rewrite (lookup_get _ _ _ G). simpl.
  assert (Fok : exists f, fill_or (fill n) (fun _ => let* d := node_depth ws nid in ok (default_fill_for_depth d)) = ok f).
  { destruct (node_depth_terminates ws nid) as [d D].
    unfold fill_or. destruct (fill n) as [s|]; [destruct (String.eqb s "")|]; rewrite ?D; simpl; eauto. }
  destruct Fok as [f F]. rewrite F. simpl. eexists; split; [reflexivity|split; [|reflexivity]].
  unfold shape, set_nodes. simpl.
  unfold Dict.set. assert (M : Dict.mem (nodes ws) nid = true) by (apply mem_keys; auto). rewrite M.
  rewrite map_map. apply map_ext_in. intros [k v] Ik. simpl.
  destruct (Z.eqb k nid) eqn:E; auto. apply Z.eqb_eq in E; subst.
  pose proof (In_get _ _ _ ND Ik) as G'. rewrite G in G'. inversion G'; subst. reflexivity.
Qed.

Lemma mfold_refresh_fill ws l :
  NoDup (Dict.keys (nodes ws)) -> incl l (Dict.keys (nodes ws)) ->
  exists ws', mfold refresh_fill ws l = ok ws' /\ shape ws' = shape ws /\ parent ws' = parent ws.
Proof.
  revert ws. induction l as [|a l IH]; intros ws ND Inc; simpl; [eauto|].
  destruct (refresh_fill_shape ws a ND (Inc a (or_introl eq_refl))) as [ws1 [R [S P]]].
  rewrite R. simpl. destruct (IH ws1) as [ws2 [R2 [S2 P2]]].
  - rewrite keys_shape, S, <- keys_shape. exact ND.
  - intros b Ib. rewrite keys_shape, S, <- keys_shape. apply Inc. right. exact Ib.
  - exists ws2. rewrite R2, S2, P2, S, P. auto.
Qed.

(** ** Redraw over a dangling edge *)

Lemma render_edge_ok_or_keyerror ep cp ws pid cid drawn :
  (exists r, render_edge ep cp ws pid cid drawn = ok r /\ nodes (fst r) = nodes ws)
  \/ render_edge ep cp ws pid cid drawn = raise KeyError.
Proof.
  unfold render_edge, node_center, Dict.lookup.
  destruct (Dict.get (nodes ws) pid); simpl; [|right; reflexivity].
  destruct (Dict.get (nodes ws) cid); simpl; [|right; reflexivity].
  left. destruct (to_canvas_point ws (x n) (y n)), (to_canvas_point ws (x n0) (y n0)).
  destruct (edge_ends ep ws pid cid _ _ _ _).
  match goal with |- context [let '(_, _) := ?m in _] => destruct m end.
  eexists; split; reflexivity.
Qed.

Lemma render_edge_missing ep cp ws pid cid drawn :
  Dict.get (nodes ws) cid = None -> render_edge ep cp ws pid cid drawn = raise KeyError.
Proof.
  intros G. unfold render_edge, node_center, Dict.lookup. rewrite G.
  destruct (Dict.get (nodes ws) pid); reflexivity.
Qed.

Lemma mfold_render_missing ep cp es (acc : Workspace * list DrawnPath) pid cid :
  In (pid, cid) es -> Dict.get (nodes (fst acc)) cid = None ->
  mfold (fun acc e => render_edge ep cp (fst acc) (fst e) (snd e) (snd acc)) acc es = raise KeyError.
Proof.
  revert acc. induction es as [|e es IH]; intros acc I G; [destruct I|]. simpl.
  destruct (render_edge_ok_or_keyerror ep cp (fst acc) (fst e) (snd e) (snd acc)) as [[r [R N]]|R];
    rewrite R; simpl; [|reflexivity].
  destruct I as [E|I].
  - subst e. simpl in R. rewrite render_edge_missing in R by exact G. discriminate.
  - apply IH; auto. rewrite N. exact G.
Qed.

Lemma redraw_missing ep cp ws pid cid :
  In (pid, cid) (edges ws) -> Dict.get (nodes ws) cid = None -> redraw ep cp ws = raise KeyError.
Proof.
  intros I G. unfold redraw. erewrite mfold_render_missing; eauto.
Qed.

Definition loaded_nodes (doc : Document) : Dict.t Z Node :=
  map (fun kv => (fst kv, raw_to_node (snd kv))) (d_nodes doc).

Lemma load_state_eq doc :
  NoDup (map fst (d_nodes doc)) ->
  exists ws0, nodes ws0 = loaded_nodes doc /\
    parent ws0 = parents_fold (loaded_nodes doc) (map (fun kv => (fst kv, @None Z)) (d_nodes doc)) /\
    load_state doc =
      (let* ws := mfold refresh_fill ws0 (Dict.keys (loaded_nodes doc)) in
       ok (set_root_id ws (match root_id ws with
              | Some r => if Dict.mem (nodes ws) r then Some r else hd_error (Dict.keys (nodes ws))
              | None => hd_error (Dict.keys (nodes ws))
              end))).
Proof.
  intros ND. unfold load_state. rewrite load_nodes_fold by (auto; intros k _; simpl; tauto).
  eexists. split; [|split]; [| |reflexivity]; reflexivity.
Qed.

(** ** Sample inputs *)

(** Simple routing kernels: the exit point is the target centre, the control
    points are the two ends. *)
Definition center_exit (ws : Workspace) (nid : Z) (tx ty : Q) : pt := (tx, ty).
Definition end_controls (ws : Workspace) (pid cid : Z) (start end_ : pt) (offset : Q) : pt * pt :=
  (start, end_).

Definition raw_leaf (cs : list Z) : RawNode := mkRaw None None None (Some cs) None None.

(** [{"root": 1, "nodes": {"1": {"children": [2]}}}] *)
Definition doc_dangling : Document := mkDoc (Some 1) None [(1, raw_leaf [2])].

Definition leaf_at (px py : Q) (cs : list Z) : Node := mkNode "" px py cs None false None None.

(** Two nodes, [1 -> 2], side by side, at zoom 1. *)
Definition ws_pair : Workspace :=
  mkWs [(1, leaf_at 0 0 [2]); (2, leaf_at 300 0 [])] [(1, None); (2, Some 1)] [] 2 (Some 1) 3 1 0 0.

(** ** Layout (auto_layout and its helpers) *)

(** The [while queue] loop of [_assign_directions] (queue popped at the
    front), with a step budget. *)
Fixpoint directions_loop (ws : Workspace) (fuel : nat) (directions : Dict.t Z Z)
  (queue : list Z) : Res (Dict.t Z Z) :=
  match queue with
  | [] => ok directions
  | nid :: queue' =>
    match fuel with
    | O => raise OutOfFuel
    | S fuel' =>
      let* n := Dict.lookup (nodes ws) nid in
      let direction := odflt 1 (Dict.get directions nid) in
      let directions := fold_left (fun d child => Dict.set d child direction) (children n) directions in
      directions_loop ws fuel' directions (queue' ++ children n)
    end
  end.

Definition assign_directions (fuel : nat) (ws : Workspace) (root_id : Z) : Res (Dict.t Z Z) :=
  let* rn := Dict.lookup (nodes ws) root_id in
  let cs := children rn in
  let directions :=
    fold_left (fun d ic => Dict.set d (snd ic) (if Nat.even (fst ic) then -1 else 1))
      (combine (seq 0 (List.length cs)) cs) [(root_id, 0)] in
  let* directions := directions_loop ws fuel directions cs in
  ok (fold_left (fun d nid => Dict.setdefault d nid (if Z.eqb nid root_id then 0 else 1))
        (Dict.keys (nodes ws)) directions).

(** The [while stack] loop of [_compute_depths]; the stack is kept with its
    top first. *)
Fixpoint depths_loop (ws : Workspace) (fuel : nat) (depths : Dict.t Z nat)
  (stack : list Z) : Res (Dict.t Z nat) :=
  match stack with
  | [] => ok depths
  | nid :: stack' =>
    match fuel with
    | O => raise OutOfFuel
    | S fuel' =>
      let* n := Dict.lookup (nodes ws) nid in
      let* '(depths, stack) :=
        mfold (fun acc child =>
          let '(depths, stack) := acc in
          let* d := Dict.lookup depths nid in
          ok (Dict.set depths child (S d), child :: stack)) (depths, stack') (children n) in
      depths_loop ws fuel' depths stack
    end
  end.

Definition compute_depths (fuel : nat) (ws : Workspace) (root_id : Z) : Res (Dict.t Z nat) :=
  let* depths := depths_loop ws fuel [(root_id, O)] [root_id] in
  ok (fold_left (fun depths nid =>
        if Dict.mem depths nid then depths
        else Dict.set depths nid
               (match parent_of ws nid with
                | Some p => S (odflt O (Dict.get depths p))
                | None => O
                end))
      (Dict.keys (nodes ws)) depths).

(** The recursive [dfs] of [_collect_subtree]; [fuel] bounds the recursion
    depth (CPython raises [RecursionError] past its limit). *)
Fixpoint collect_dfs (ws : Workspace) (fuel : nat) (collected : list Z) (node_id : Z) : Res (list Z) :=
  match fuel with
  | O => raise OutOfFuel
  | S fuel' =>
    let collected := collected ++ [node_id] in
    let* n := Dict.lookup (nodes ws) node_id in
    mfold (collect_dfs ws fuel') collected (children n)
  end.

Definition collect_subtree (fuel : nat) (ws : Workspace) (nid : Z) : Res (list Z) :=
  collect_dfs ws fuel [] nid.

(** [list.sort] / [sorted]: a stable insertion sort for a strict order. *)
Fixpoint insert_by {A} (lt : A -> A -> bool) (a : A) (l : list A) : list A :=
  match l with
  | [] => [a]
  | b :: l' => if lt a b then a :: l else b :: insert_by lt a l'
  end.

Definition sort_by {A} (lt : A -> A -> bool) (l : list A) : list A :=
  fold_left (fun acc a => insert_by lt a acc) l [].

(** The [while len(positions) < count] loop of [_symmetrical_positions]. *)
Fixpoint sym_loop (fuel : nat) (count : nat) (positions : list Q) (offset : Q) : Res (list Q) :=
  if Nat.ltb (List.length positions) count then
    match fuel with
    | O => raise OutOfFuel
    | S fuel' => sym_loop fuel' count (positions ++ [Qopp offset; offset]) (offset + 1)%Q
    end
  else ok positions.

Definition symmetrical_positions (count : nat) : Res (list Q) :=
  match count with
  | O => ok []
  | _ =>
    let* positions :=
      if Nat.even count then sym_loop count count [] (1 # 2)
      else sym_loop count count [0%Q] 1 in
    ok (sort_by qlt (firstn count positions))
  end.

(** An entry [(parent_slot, ordinal, nid, parent_id)]. *)
Definition Entry := (Q * Z * Z * option Z)%type.

Definition entry_lt (a b : Entry) : bool :=
  let '(sa, oa, _, _) := a in
  let '(sb, ob, _, _) := b in
  (qlt sa sb || (Qeq_bool sa sb && Z.ltb oa ob))%bool.

Fixpoint index_of (v : Z) (l : list Z) : option Z :=
  match l with
  | [] => None
  | a :: l' => if Z.eqb a v then Some 0 else option_map Z.succ (index_of v l')
  end.

(** The local [assign] of [_compute_vertical_slots]. *)
Definition assign_slots (root_id : Z) (entries : list Entry) (positions : list Q)
  (slots : Dict.t Z Q) : Dict.t Z Q :=
  let ordered := sort_by entry_lt entries in
  let len := List.length positions in
  fold_left (fun slots ie =>
    let '(idx, (parent_slot, _, nid, parent_id)) := ie in
    let base := match len with O => 0%Q | _ => nth (Nat.min idx (len - 1)) positions 0%Q end in
    let weight := match parent_id with
                  | None => 0%Q
                  | Some p => if Z.eqb p root_id then 0%Q else (1 # 4)%Q
                  end in
    Dict.set slots nid (base * (1 - weight) + parent_slot * weight)%Q)
    (combine (seq 0 (List.length ordered)) ordered) slots.

#[export] Instance KeyEq_nat : KeyEq nat := { keq := Nat.eqb; keq_spec := Nat.eqb_eq }.

(** One node of a level: its entry and the bucket ([-1], [0], [1]) of its
    direction. *)
Definition slot_entry (ws : Workspace) (directions : Dict.t Z Z) (slots : Dict.t Z Q)
  (nid : Z) : Res (Entry * Z) :=
  let parent_id := parent_of ws nid in
  let parent_slot := match parent_id with Some p => odflt 0%Q (Dict.get slots p) | None => 0%Q end in
  let* ordinal := match parent_id with
                  | Some p => let* pn := Dict.lookup (nodes ws) p in
                              ok (odflt 0 (index_of nid (children pn)))
                  | None => ok 0
                  end in
  let direction := match Dict.get directions nid with
                   | Some d => d
                   | None => match parent_id with Some p => odflt 0 (Dict.get directions p) | None => 0 end
                   end in
  ok ((parent_slot, ordinal, nid, parent_id), direction).

(** One iteration [depth] of the level loop of [_compute_vertical_slots]. *)
Definition level_slots (ws : Workspace) (root_id : Z) (directions : Dict.t Z Z)
  (levels : Dict.t nat (list Z)) (slots : Dict.t Z Q) (depth : nat) : Res (Dict.t Z Q) :=
  let lnodes := odflt [] (Dict.get levels depth) in
  match lnodes with
  | [] => ok slots
  | _ =>
    let* '(left_, right_, centre_) :=
      mfold (fun acc nid =>
        let '(left_, right_, centre_) := acc in
        let* '(entry, direction) := slot_entry ws directions slots nid in
        ok (if Z.ltb 0 direction then (left_, right_ ++ [entry], centre_)
            else if Z.ltb direction 0 then (left_ ++ [entry], right_, centre_)
            else (left_, right_, centre_ ++ [entry])))
        ([], [], []) lnodes in
    let max_side := Nat.max (List.length left_) (List.length right_) in
    let* side_positions := symmetrical_positions max_side in
    let* centre_positions := symmetrical_positions (List.length centre_) in
    let slots := assign_slots root_id left_ side_positions slots in
    let slots := assign_slots root_id right_ side_positions slots in
    ok (assign_slots root_id centre_ centre_positions slots)
  end.

Definition compute_vertical_slots (ws : Workspace) (root_id : Z) (directions : Dict.t Z Z)
  (depths : Dict.t Z nat) : Res (Dict.t Z Q) :=
  let levels :=
    fold_left (fun levels kv =>
      Dict.set levels (snd kv) (odflt [] (Dict.get levels (snd kv)) ++ [fst kv])) depths [] in
  let max_depth := fold_left Nat.max (Dict.keys levels) O in
  let* slots := mfold (level_slots ws root_id directions levels) [(root_id, 0%Q)] (seq 1 max_depth) in
  ok (fold_left (fun slots nid => Dict.setdefault slots nid 0%Q) (Dict.keys (nodes ws)) slots).

Definition STEP_X : Q := inject_Z (NODE_W + HORIZ_GAP).
Definition STEP_Y : Q := inject_Z (NODE_H + VERT_GAP).

(** The body of the placement loop of [auto_layout] for one node. *)
Definition place_node (root_id : Z) (base_x base_y : Q) (directions : Dict.t Z Z)
  (depths : Dict.t Z nat) (slots : Dict.t Z Q) (root_slot : Q) (ws : Workspace) (nid : Z)
  : Res Workspace :=
  let direction := odflt (if Z.eqb nid root_id then 0 else 1) (Dict.get directions nid) in
  let depth := odflt O (Dict.get depths nid) in
  let x := if Z.ltb direction 0 then (base_x - inject_Z (Z.of_nat depth) * STEP_X)%Q
           else if Z.ltb 0 direction then (base_x + inject_Z (Z.of_nat depth) * STEP_X)%Q
           else base_x in
  let offset := (odflt root_slot (Dict.get slots nid) - root_slot)%Q in
  let y := (base_y + offset * STEP_Y)%Q in
  let* n := Dict.lookup (nodes ws) nid in
  let n := with_xy n x y in
  let ws := set_nodes ws (Dict.set (nodes ws) nid n) in
  if custom n then ok ws
  else
    let ws := set_nodes ws (Dict.set (nodes ws) nid (with_fill n (Some (default_fill_for_depth depth)))) in
    refresh_fill ws nid.

(** [auto_layout] on a canvas of [canvas_w] by [canvas_h] pixels; [fuel]
    bounds the two unbounded loops it runs. *)
Definition auto_layout ep cp (canvas_w canvas_h : Z) (fuel : nat) (ws : Workspace) : Res Workspace :=
  match Dict.keys (nodes ws) with
  | [] => ok ws
  | first_id :: _ =>
    let root_id := match root_id ws with
                   | Some r => if Z.eqb r 0 then first_id else r
                   | None => first_id
                   end in
    let cx_canvas := (inject_Z (Z.max canvas_w (NODE_W * 2)) / 2)%Q in
    let cy_canvas := (inject_Z (Z.max canvas_h (NODE_H * 2)) / 2)%Q in
    let '(base_x, base_y) := from_canvas_point ws cx_canvas cy_canvas in
    let* directions := assign_directions fuel ws root_id in
    let* depths := compute_depths fuel ws root_id in
    let* slots := compute_vertical_slots ws root_id directions depths in
    let root_slot := odflt 0%Q (Dict.get slots root_id) in
    let* ws := mfold (place_node root_id base_x base_y directions depths slots root_slot)
                 ws (Dict.keys (nodes ws)) in
    redraw ep cp ws
  end.

(** [{"root": 1, "next_id": 3, "nodes": {"1": {"children": [2]}, "2": {"children": [1]}}}] *)
Definition doc_cycle : Document := mkDoc (Some 1) (Some 3) [(1, raw_leaf [2]); (2, raw_leaf [1])].

(** What loading [doc_cycle] gives. *)
Definition ws_cycle : Workspace :=
  mkWs [(1, mkNode "" 0 0 [2] (Some "#FFB3BE"%string) false None None);
        (2, mkNode "" 0 0 [1] (Some "#FFB3BE"%string) false None None)]
       [(1, Some 2); (2, Some 1)] [] 2 (Some 1) 3 1 0 0.

(** ** Frame of the layout *)

(** [n'] differs from [n] at most in position, and in fill when [n] is not
    custom. *)
Definition node_frame (n n' : Node) : Prop :=
  text n' = text n /\ children n' = children n /\ w n' = w n /\ h n' = h n /\
  custom n' = custom n /\ (custom n = true -> fill n' = fill n).

(** [ws'] keeps the ids of [ws] in order, every node up to [node_frame], and
    every field but the edge-offset memory. *)
Definition layout_frame (ws ws' : Workspace) : Prop :=
  Dict.keys (nodes ws') = Dict.keys (nodes ws) /\
  (forall nid n, Dict.get (nodes ws) nid = Some n ->
     exists n', Dict.get (nodes ws') nid = Some n' /\ node_frame n n') /\
  parent ws' = parent ws /\ palette_index ws' = palette_index ws /\
  root_id ws' = root_id ws /\ next_id ws' = next_id ws /\ scale ws' = scale ws /\
  offset_x ws' = offset_x ws /\ offset_y ws' = offset_y ws.

Lemma node_frame_refl n : node_frame n n.
Proof. repeat split; auto. Qed.

Lemma layout_frame_refl ws : layout_frame ws ws.
Proof. repeat split; auto. intros nid n G. exists n. split; auto. apply node_frame_refl. Qed.

Lemma set_existing_frame ws0 ws nid n n' :
  layout_frame ws0 ws -> Dict.get (nodes ws) nid = Some n ->
  text n' = text n -> children n' = children n -> w n' = w n -> h n' = h n ->
  custom n' = custom n -> (custom n = true -> fill n' = fill n) ->
  layout_frame ws0 (set_nodes ws (Dict.set (nodes ws) nid n')).
Proof.
  intros [K [N R]] G T C W Hh Cu F.
  split; [|split; [|exact R]].
  - simpl. rewrite keys_set. replace (Dict.mem (nodes ws) nid) with true; [exact K|].
    symmetry. apply mem_get. eauto.
  - intros k m Gm. destruct (N k m Gm) as [m' [Gm' Fr]]. simpl. rewrite get_set.
    destruct (keq nid k) eqn:E; [|exists m'; split; auto].
    apply keq_spec in E; subst k. rewrite G in Gm'. inversion Gm'; subst m'.
    exists n'. split; [reflexivity|].
    destruct Fr as [T0 [C0 [W0 [H0 [Cu0 F0]]]]].
    unfold node_frame. split; [congruence|split; [congruence|split; [congruence|split; [congruence|split; [congruence|]]]]].
    intros Cm. assert (Cn : custom n = true) by congruence. rewrite (F Cn), (F0 Cm). reflexivity.
Qed.

Lemma refresh_fill_frame ws0 ws nid ws' :
  layout_frame ws0 ws -> refresh_fill ws nid = ok ws' ->
  (forall n, Dict.get (nodes ws) nid = Some n -> custom n = false) ->
  layout_frame ws0 ws'.
Proof.
  intros Fr R Cf. unfold refresh_fill, Dict.lookup in R.
  destruct (Dict.get (nodes ws) nid) as [n|] eqn:G; simpl in R; [|discriminate].
  destruct (fill_or _ _) as [f|e]; [|discriminate]. simpl in R. inversion R; subst ws'.
  apply (set_existing_frame ws0 ws nid n); auto. rewrite (Cf n eq_refl). discriminate.
Qed.

Lemma place_node_frame root base_x base_y dirs depths slots root_slot ws0 ws nid ws' :
  layout_frame ws0 ws ->
  place_node root base_x base_y dirs depths slots root_slot ws nid = ok ws' ->
  layout_frame ws0 ws'.
Proof.
  intros Fr P. unfold place_node, Dict.lookup in P.
  destruct (Dict.get (nodes ws) nid) as [n|] eqn:G; simpl in P; [|discriminate].
  set (x' := if Z.ltb _ 0 then _ else _) in P.
  set (y' := (base_y + _)%Q) in P.
  assert (Fr1 := set_existing_frame ws0 ws nid n (with_xy n x' y') Fr G
                   eq_refl eq_refl eq_refl eq_refl eq_refl (fun _ => eq_refl)).
  simpl in P. destruct (custom n) eqn:Cu.
  - inversion P; subst ws'. exact Fr1.
  - eapply refresh_fill_frame; [|exact P|].
    + apply (set_existing_frame ws0 (set_nodes ws (Dict.set (nodes ws) nid (with_xy n x' y'))) nid (with_xy n x' y')); auto.
      * simpl. apply get_set_same.
      * simpl. rewrite Cu. discriminate.
    + intros m Gm. simpl in Gm. rewrite get_set_same in Gm. inversion Gm; subst m. simpl. exact Cu.
Qed.

Lemma mfold_place_frame root base_x base_y dirs depths slots root_slot ws0 l ws ws' :
  layout_frame ws0 ws ->
  mfold (place_node root base_x base_y dirs depths slots root_slot) ws l = ok ws' ->
  layout_frame ws0 ws'.
Proof.
  revert ws. induction l as [|a l IH]; intros ws Fr M; simpl in M.
  - inversion M; subst; exact Fr.
  - destruct (place_node _ _ _ _ _ _ _ ws a) as [ws1|e] eqn:P; [|discriminate].
    simpl in M. eapply IH; [|exact M]. eapply place_node_frame; eauto.
Qed.

Lemma render_edge_offsets_only ep cp ws pid cid drawn r :
  render_edge ep cp ws pid cid drawn = ok r -> exists e, fst r = set_edge_offsets ws e.
Proof.
  unfold render_edge. intros R.
  destruct (node_center ws pid) as [[? ?]|?]; [|discriminate]. simpl in R.
  destruct (node_center ws cid) as [[? ?]|?]; [|discriminate]. simpl in R.
  destruct (edge_ends _ _ _ _ _ _ _ _).
  match type of R with context [let '(_, _) := ?m in _] => destruct m end.
  inversion R; subst. eexists. reflexivity.
Qed.

Lemma mfold_render_frame ep cp es (acc : Workspace * list DrawnPath) r ws0 :
  layout_frame ws0 (fst acc) ->
  mfold (fun acc e => render_edge ep cp (fst acc) (fst e) (snd e) (snd acc)) acc es = ok r ->
  layout_frame ws0 (fst r).
Proof.
  revert acc. induction es as [|e es IH]; intros acc Fr M; simpl in M.
  - inversion M; subst; exact Fr.
  - destruct (render_edge ep cp (fst acc) (fst e) (snd e) (snd acc)) as [r1|x] eqn:R; [|discriminate].
    simpl in M. eapply IH; [|exact M].
    destruct (render_edge_offsets_only _ _ _ _ _ _ _ R) as [eo ->]. exact Fr.
Qed.

Lemma redraw_frame ep cp ws0 ws ws' :
  layout_frame ws0 ws -> redraw ep cp ws = ok ws' -> layout_frame ws0 ws'.
Proof.
  intros Fr R. unfold redraw in R.
  destruct (mfold _ _ (edges ws)) as [[ws1 d]|e] eqn:M; [|discriminate].
  simpl in R. inversion R; subst ws1.
  exact (mfold_render_frame ep cp (edges ws) (set_edge_offsets ws _, []) (ws', d) ws0 Fr M).
Qed.

Lemma bind_inv {A B} (m : Res A) (f : A -> Res B) b :
  bind m f = ok b -> exists a, m = ok a /\ f a = ok b.
Proof. destruct m as [a|e]; simpl; [intros E; exists a; split; [reflexivity|exact E]|discriminate]. Qed.

(** ** Tree mutations (_create_node, _add_edge, _set_root, add_child,
    delete_selected) *)

Definition set_next_id ws v := mkWs (nodes ws) (parent ws) (edge_offsets ws) (palette_index ws)
  (root_id ws) v (scale ws) (offset_x ws) (offset_y ws).
Definition set_palette_index ws v := mkWs (nodes ws) (parent ws) (edge_offsets ws) v
  (root_id ws) (next_id ws) (scale ws) (offset_x ws) (offset_y ws).
Definition with_size (n : Node) (w' h' : option Q) : Node :=
  mkNode (text n) (x n) (y n) (children n) (fill n) (custom n) w' h'.

(** [_next_auto_color]: the palette is [PALETTE_COLORS]. *)
Definition next_auto_color (ws : Workspace) : string * Workspace :=
  (nth (Z.to_nat (palette_index ws mod Z.of_nat (List.length PALETTE_COLORS))) PALETTE_COLORS ""%string,
   set_palette_index ws (palette_index ws + 1)).

(** [_update_node_size]; [measure] is the Tk text measurement: the width and
    height of the formatted text, padding included. *)
Definition update_node_size (measure : string -> Q * Q) (ws : Workspace) (nid : Z) : Res Workspace :=
  let* n := Dict.lookup (nodes ws) nid in
  let txt := if String.eqb (text n) "" then " "%string else text n in
  let '(width, height) := measure txt in
  ok (set_nodes ws (Dict.set (nodes ws) nid
        (with_size n (Some (Qmax width (inject_Z NODE_W))) (Some (Qmax height (inject_Z NODE_H)))))).

(** [_set_root] *)
Definition set_root (ws : Workspace) (nid : Z) : Workspace :=
  set_parent (set_root_id ws (Some nid)) (Dict.set (parent ws) nid None).

(** [_create_node]; returns the new id. *)
Definition create_node measure ep cp (ws : Workspace) (txt : string) (px py : Q)
  : Res (Workspace * Z) :=
  let '(nx, ny) := find_free_position (nodes ws) px py in
  let nid := next_id ws in
  let ws := set_next_id ws (nid + 1) in
  let '(fill, ws) := next_auto_color ws in
  let ws := set_nodes ws (Dict.set (nodes ws) nid
              (mkNode txt nx ny [] (Some fill) true (Some (inject_Z NODE_W)) (Some (inject_Z NODE_H)))) in
  let ws := set_parent ws (Dict.set (parent ws) nid None) in
  let* ws := refresh_fill ws nid in
  let* ws := update_node_size measure ws nid in
  let* ws := redraw ep cp ws in
  let ws := match root_id ws with None => set_root ws nid | Some _ => ws end in
  ok (ws, nid).

(** [list.remove]: drops the first occurrence. *)
Fixpoint remove_first (v : Z) (l : list Z) : list Z :=
  match l with
  | [] => []
  | a :: l' => if Z.eqb a v then l' else a :: remove_first v l'
  end.

(** [_add_edge] *)
Definition add_edge ep cp (ws : Workspace) (parent_id child_id : Z) : Res Workspace :=
  let* ns := match parent_of ws child_id with
             | Some q =>
               let* qn := Dict.lookup (nodes ws) q in
               ok (if existsb (Z.eqb child_id) (children qn)
                   then Dict.set (nodes ws) q (with_children qn (remove_first child_id (children qn)))
                   else nodes ws)
             | None => ok (nodes ws)
             end in
  let ws := set_nodes ws ns in
  let ws := set_parent ws (Dict.set (parent ws) child_id (Some parent_id)) in
  let* pn := Dict.lookup (nodes ws) parent_id in
  let ws := if existsb (Z.eqb child_id) (children pn) then ws
            else set_nodes ws (Dict.set (nodes ws) parent_id (with_children pn (children pn ++ [child_id]))) in
  let ws := match root_id ws with
            | Some r => if Z.eqb child_id r then set_root ws parent_id else ws
            | None => ws
            end in
  let* cn := Dict.lookup (nodes ws) child_id in
  let* ws := if custom cn then ok ws
             else let* depth := node_depth ws child_id in
                  let ws := set_nodes ws (Dict.set (nodes ws) child_id
                              (with_fill cn (Some (default_fill_for_depth depth)))) in
                  refresh_fill ws child_id in
  redraw ep cp ws.

(** [add_child] with [selected] as the selected node. *)
Definition add_child measure ep cp (ws : Workspace) (selected : Z) : Res Workspace :=
  if Z.eqb selected 0 then ok ws
  else
    let parent_id := selected in
    let* pn := Dict.lookup (nodes ws) parent_id in
    let base_x :=
      if (match root_id ws with Some r => Z.eqb parent_id r | None => false end
          && Nat.odd (List.length (children pn)))%bool
      then (x pn - inject_Z NODE_W - inject_Z HORIZ_GAP)%Q
      else (x pn + inject_Z NODE_W + inject_Z HORIZ_GAP)%Q in
    let '(new_x, new_y) := find_free_position (nodes ws) base_x (y pn) in
    let* _ := node_depth ws parent_id in
    let* '(ws, nid) := create_node measure ep cp ws "New Node"%string new_x new_y in
    add_edge ep cp ws parent_id nid.

(** One iteration of the deletion loop of [delete_selected]. *)
Definition delete_one (ws : Workspace) (cid : Z) : Res Workspace :=
  let* cn := Dict.lookup (nodes ws) cid in
  let ws := set_parent ws (fold_left (fun par ch => Dict.set par ch None) (children cn) (parent ws)) in
  let* ws := match parent_of ws cid with
             | Some q =>
               let* qn := Dict.lookup (nodes ws) q in
               ok (if existsb (Z.eqb cid) (children qn)
                   then set_nodes ws (Dict.set (nodes ws) q (with_children qn (remove_first cid (children qn))))
                   else ws)
             | None => ok ws
             end in
  ok (set_nodes (set_parent ws (Dict.pop (parent ws) cid)) (Dict.pop (nodes ws) cid)).

(** [delete_selected] with [nid] selected and the confirmation accepted;
    [fuel] bounds the recursion of [_collect_subtree]. *)
Definition delete_selected ep cp (fuel : nat) (ws : Workspace) (nid : Z) : Res Workspace :=
  if Z.eqb nid 0 then ok ws
  else
    let* _ := collect_subtree fuel ws nid in
    let* ids := collect_subtree fuel ws nid in
    let* ws := mfold delete_one ws ids in
    let ws := match root_id ws with
              | Some r => if existsb (Z.eqb r) ids then set_root_id ws (hd_error (Dict.keys (nodes ws))) else ws
              | None => ws
              end in
    redraw ep cp ws.

(** ** The tree invariant *)

(** [self.nodes[p]["children"]] when [p] is a node. *)
Definition children_of (ws : Workspace) (p : Z) : option (list Z) :=
  option_map children (Dict.get (nodes ws) p).

(** Bidirectional consistency: a child listed by [p] has parent [p] and is a
    node, a parent pointer [p] is matched by [p]'s children list, and no id
    is listed twice. *)
Definition Cons (ws : Workspace) : Prop :=
  NoDup (Dict.keys (nodes ws)) /\
  (forall p cs c, children_of ws p = Some cs -> In c cs ->
     parent_of ws c = Some p /\ In c (Dict.keys (nodes ws))) /\
  (forall c p, parent_of ws c = Some p ->
     exists cs, children_of ws p = Some cs /\ In c cs) /\
  (forall p cs, children_of ws p = Some cs -> NoDup cs).

(** A non-empty workspace has a root node, and it is the only node without
    a parent. *)
Definition Rooted (ws : Workspace) : Prop :=
  nodes ws <> [] ->
  exists r, root_id ws = Some r /\ In r (Dict.keys (nodes ws)) /\
    forall v, In v (Dict.keys (nodes ws)) -> (parent_of ws v = None <-> v = r).

(** Same ids, children lists and parent pointers. *)
Definition tree_eq (ws ws' : Workspace) : Prop :=
  Dict.keys (nodes ws') = Dict.keys (nodes ws) /\
  (forall k, children_of ws' k = children_of ws k) /\
  (forall v, parent_of ws' v = parent_of ws v).

Fixpoint nodupb (l : list Z) : bool :=
  match l with
  | [] => true
  | a :: l' => negb (existsb (Z.eqb a) l') && nodupb l'
  end.

Definition opt_z_eqb (a b : option Z) : bool :=
  match a, b with
  | Some u, Some v => Z.eqb u v
  | None, None => true
  | _, _ => false
  end.

(** Decision procedures for [Cons] and [Rooted], for concrete workspaces. *)
Definition cons_b (ws : Workspace) : bool :=
  nodupb (Dict.keys (nodes ws)) &&
  forallb (fun kv => forallb (fun c => opt_z_eqb (parent_of ws c) (Some (fst kv)) &&
                                      existsb (Z.eqb c) (Dict.keys (nodes ws))) (children (snd kv))
                     && nodupb (children (snd kv))) (nodes ws) &&
  forallb (fun c => match parent_of ws c with
                    | Some p => match children_of ws p with
                                | Some cs => existsb (Z.eqb c) cs
                                | None => false
                                end
                    | None => true
                    end) (Dict.keys (parent ws)).

Definition rooted_b (ws : Workspace) : bool :=
  match nodes ws with
  | [] => true
  | _ => match root_id ws with
         | Some r => existsb (Z.eqb r) (Dict.keys (nodes ws)) &&
                     forallb (fun v => Bool.eqb (opt_z_eqb (parent_of ws v) None) (Z.eqb v r))
                             (Dict.keys (nodes ws))
         | None => false
         end
  end.

(** ** Tree invariant: basic facts *)

Lemma existsb_Zeqb a l : existsb (Z.eqb a) l = true <-> In a l.
Proof.
  rewrite existsb_exists. split.
  - intros [b [I E]]. apply Z.eqb_eq in E. subst. exact I.
  - intros I. exists a. split; [exact I | apply Z.eqb_refl].
Qed.

Lemma nodupb_NoDup l : nodupb l = true -> NoDup l.
Proof.
  induction l as [|a l IH]; simpl; intros E; [constructor|].
  apply andb_prop in E as [N E]. constructor; [|auto].
  intros I. apply (proj2 (existsb_Zeqb a l)) in I. rewrite I in N. discriminate.
Qed.

Lemma opt_z_eqb_eq a b : opt_z_eqb a b = true -> a = b.
Proof. destruct a, b; simpl; try discriminate; auto. intros E. apply Z.eqb_eq in E. congruence. Qed.

Lemma get_some_in {K V} `{KeyEq K} (d : Dict.t K V) k v : Dict.get d k = Some v -> In (k, v) d.
Proof.
  induction d as [|[k0 v0] d IH]; simpl; [discriminate|].
  destruct (keq k0 k) eqn:E; [|auto]. apply keq_spec in E. intros W. inversion W; subst. left. reflexivity.
Qed.

Lemma cons_b_sound ws : cons_b ws = true -> Cons ws.
Proof.
  unfold cons_b. intros E. apply andb_prop in E as [E P]. apply andb_prop in E as [K C].
  rewrite forallb_forall in C, P.
  split; [apply nodupb_NoDup; exact K|]. split; [|split].
  - intros p cs c G I. unfold children_of in G.
    destruct (Dict.get (nodes ws) p) as [n|] eqn:Gn; simpl in G; [|discriminate]. inversion G; subst cs.
    specialize (C _ (get_some_in _ _ _ Gn)). apply andb_prop in C as [C _].
    rewrite forallb_forall in C. specialize (C c I). apply andb_prop in C as [C1 C2].
    split; [exact (opt_z_eqb_eq _ _ C1) | apply existsb_Zeqb; exact C2].
  - intros c p G. specialize (P c (parent_of_in_keys _ _ _ G)). rewrite G in P.
    destruct (children_of ws p) as [cs|]; [|discriminate]. exists cs. split; [reflexivity|].
    apply existsb_Zeqb. exact P.
  - intros p cs G. unfold children_of in G.
    destruct (Dict.get (nodes ws) p) as [n|] eqn:Gn; simpl in G; [|discriminate]. inversion G; subst cs.
    specialize (C _ (get_some_in _ _ _ Gn)). apply andb_prop in C as [_ C]. apply nodupb_NoDup. exact C.
Qed.

Lemma rooted_b_sound ws : rooted_b ws = true -> Rooted ws.
Proof.
  unfold rooted_b, Rooted. intros E Ne. destruct (nodes ws) as [|kv l] eqn:Nw; [congruence|].
  destruct (root_id ws) as [r|]; [|discriminate]. rewrite <- Nw in E |- *.
  apply andb_prop in E as [I F]. exists r. split; [reflexivity|]. split; [apply existsb_Zeqb; exact I|].
  intros v Iv. rewrite forallb_forall in F. specialize (F v Iv). apply Bool.eqb_prop in F.
  destruct (parent_of ws v) as [q|]; simpl in F.
  - split; [discriminate|]. intros ->. rewrite Z.eqb_refl in F. discriminate.
  - split; [intros _ | reflexivity]. apply Z.eqb_eq. auto.
Qed.

Lemma children_of_keys ws k : children_of ws k <> None <-> In k (Dict.keys (nodes ws)).
Proof.
  unfold children_of. split.
  - destruct (Dict.get (nodes ws) k) eqn:G; simpl; [intros _; eapply get_in_keys; eauto | congruence].
  - intros I. destruct (proj1 (mem_get _ _) (proj2 (mem_keys _ _) I)) as [v G]. rewrite G. discriminate.
Qed.

Lemma tree_eq_refl ws : tree_eq ws ws.
Proof. repeat split; auto. Qed.

Lemma tree_eq_trans a b c : tree_eq a b -> tree_eq b c -> tree_eq a c.
Proof.
  intros [K1 [C1 P1]] [K2 [C2 P2]]. split; [congruence|split; intros; [rewrite C2; auto | rewrite P2; auto]].
Qed.

Lemma cons_tree_eq ws ws' : tree_eq ws ws' -> Cons ws -> Cons ws'.
Proof.
  intros [K [C P]] [ND [Hb [Hc Hd]]]. split; [rewrite K; exact ND|]. split; [|split].
  - intros p cs c G I. rewrite C in G. rewrite P, K. eauto.
  - intros c p G. rewrite P in G. setoid_rewrite C. eauto.
  - intros p cs G. rewrite C in G. eauto.
Qed.

Lemma rooted_tree_eq ws ws' : tree_eq ws ws' -> root_id ws' = root_id ws -> Rooted ws -> Rooted ws'.
Proof.
  intros [K [C P]] R Ro Ne. destruct Ro as [r [Rr [Ir F]]].
  - intros E. apply Ne. apply map_eq_nil with (f := fst). unfold Dict.keys in K. rewrite K, E. reflexivity.
  - exists r. rewrite R, K. split; [exact Rr|split; [exact Ir|]]. intros v Iv. rewrite P. auto.
Qed.

Lemma layout_frame_tree_eq ws ws' : layout_frame ws ws' -> tree_eq ws ws'.
Proof.
  intros [K [N [P _]]]. split; [exact K|split].
  - intros k. unfold children_of. destruct (Dict.get (nodes ws) k) as [n|] eqn:G.
    + destruct (N k n G) as [n' [G' [_ [C _]]]]. rewrite G'. simpl. congruence.
    + destruct (Dict.get (nodes ws') k) as [n'|] eqn:G'; [|reflexivity].
      pose proof (get_in_keys _ _ _ G') as I. rewrite K in I.
      destruct (proj1 (mem_get _ _) (proj2 (mem_keys _ _) I)) as [v Gv]. congruence.
  - intros v. unfold parent_of. rewrite P. reflexivity.
Qed.

Lemma redraw_tree_eq ep cp ws ws' :
  redraw ep cp ws = ok ws' -> tree_eq ws ws' /\ root_id ws' = root_id ws.
Proof.
  intros R. pose proof (redraw_frame ep cp ws ws ws' (layout_frame_refl ws) R) as F.
  split; [apply layout_frame_tree_eq; exact F | apply F].
Qed.

(** Replacing a node by one with the same children. *)
Lemma set_same_children_tree_eq ws k n n' :
  Dict.get (nodes ws) k = Some n -> children n' = children n ->
  tree_eq ws (set_nodes ws (Dict.set (nodes ws) k n')).
Proof.
  intros G C. split; [|split].
  - simpl. rewrite keys_set. replace (Dict.mem (nodes ws) k) with true; [reflexivity|].
    symmetry. apply mem_get. eauto.
  - intros k'. unfold children_of. simpl. rewrite get_set.
    destruct (keq k k') eqn:E; [|reflexivity]. apply keq_spec in E. subst k'. rewrite G. simpl. congruence.
  - reflexivity.
Qed.

Lemma refresh_fill_tree_eq ws nid ws' :
  refresh_fill ws nid = ok ws' -> tree_eq ws ws' /\ root_id ws' = root_id ws.
Proof.
  unfold refresh_fill, Dict.lookup. intros R.
  destruct (Dict.get (nodes ws) nid) as [n|] eqn:G; simpl in R; [|discriminate].
  destruct (fill_or _ _) as [f|e]; simpl in R; [|discriminate]. inversion R; subst ws'.
  split; [apply (set_same_children_tree_eq ws nid n); auto | reflexivity].
Qed.

Lemma update_node_size_tree_eq measure ws nid ws' :
  update_node_size measure ws nid = ok ws' -> tree_eq ws ws' /\ root_id ws' = root_id ws.
Proof.
  unfold update_node_size, Dict.lookup. intros R.
  destruct (Dict.get (nodes ws) nid) as [n|] eqn:G; simpl in R; [|discriminate].
  destruct (measure _) as [wd ht]. inversion R; subst ws'.
  split; [apply (set_same_children_tree_eq ws nid n); auto | reflexivity].
Qed.

(** [list.remove] on a list without duplicates. *)
Lemma remove_first_filter v l :
  NoDup l -> remove_first v l = filter (fun a => negb (Z.eqb a v)) l.
Proof.
  induction l as [|a l IH]; simpl; intros ND; [reflexivity|]. inversion ND; subst.
  destruct (Z.eqb a v) eqn:E; simpl.
  - apply Z.eqb_eq in E. subst a. symmetry. apply forallb_filter_id, forallb_forall.
    intros b Ib. apply negb_true_iff, Z.eqb_neq. intros ->. contradiction.
  - rewrite IH; auto.
Qed.

Lemma create_node_tree measure ep cp ws txt px py ws' nid :
  ~ In (next_id ws) (Dict.keys (nodes ws)) ->
  create_node measure ep cp ws txt px py = ok (ws', nid) ->
  nid = next_id ws /\
  Dict.keys (nodes ws') = Dict.keys (nodes ws) ++ [nid] /\
  (forall k, children_of ws' k = if Z.eqb k nid then Some [] else children_of ws k) /\
  (forall v, parent_of ws' v = if Z.eqb v nid then None else parent_of ws v) /\
  root_id ws' = match root_id ws with Some r => Some r | None => Some nid end.
Proof.
  intros Fr C. unfold create_node in C.
  destruct (find_free_position (nodes ws) px py) as [nx ny].
  unfold next_auto_color in C. cbv beta iota zeta in C.
  match type of C with bind (refresh_fill ?w _) _ = _ => set (ws1 := w) in C end.
  apply bind_inv in C as [ws2 [R2 C]]. apply bind_inv in C as [ws3 [R3 C]].
  apply bind_inv in C as [ws4 [R4 C]].
  apply refresh_fill_tree_eq in R2 as [T2 O2]. apply update_node_size_tree_eq in R3 as [T3 O3].
  apply redraw_tree_eq in R4 as [T4 O4].
  assert (T := tree_eq_trans _ _ _ (tree_eq_trans _ _ _ T2 T3) T4).
  assert (O : root_id ws4 = root_id ws) by (rewrite O4, O3, O2; reflexivity).
  assert (K1 : Dict.keys (nodes ws1) = Dict.keys (nodes ws) ++ [next_id ws]).
  { simpl. rewrite keys_set. destruct (Dict.mem (nodes ws) (next_id ws)) eqn:M; [|reflexivity].
    apply mem_keys in M. contradiction. }
  assert (C1 : forall k, children_of ws1 k = if Z.eqb k (next_id ws) then Some [] else children_of ws k).
  { intros k. unfold children_of. simpl. rewrite get_set. cbn [keq KeyEq_Z].
    rewrite Z.eqb_sym. destruct (Z.eqb k (next_id ws)); reflexivity. }
  assert (P1 : forall v, parent_of ws1 v = if Z.eqb v (next_id ws) then None else parent_of ws v).
  { intros v. unfold parent_of. simpl. rewrite get_set. cbn [keq KeyEq_Z].
    rewrite Z.eqb_sym. destruct (Z.eqb v (next_id ws)); reflexivity. }
  destruct T as [K [Ch P]].
  destruct (root_id ws4) as [r|] eqn:Rr; inversion C; subst ws' nid; clear C.
  - split; [reflexivity|]. split; [rewrite K; exact K1|]. split; [intros k; rewrite Ch; apply C1|].
    split; [intros v; rewrite P; apply P1|]. rewrite Rr, <- O. reflexivity.
  - split; [reflexivity|]. unfold set_root. simpl. split; [rewrite K; exact K1|].
    split; [intros k; unfold children_of; simpl; fold (children_of ws4 k); rewrite Ch; apply C1|].
    split; [|rewrite <- O; reflexivity].
    intros v. unfold parent_of at 1. simpl. rewrite get_set. cbn [keq KeyEq_Z].
    rewrite Z.eqb_sym. destruct (Z.eqb v (next_id ws)) eqn:E; [reflexivity|].
    fold (parent_of ws4 v). rewrite P, P1, E. reflexivity.
Qed.

Lemma nodup_snoc (l : list Z) a : NoDup l -> ~ In a l -> NoDup (l ++ [a]).
Proof.
  intros ND N. apply NoDup_app; auto; [constructor; [intros []|constructor]|].
  intros b Ib [<-|[]]. contradiction.
Qed.

Lemma create_node_cons measure ep cp ws txt px py ws' nid :
  Cons ws -> ~ In (next_id ws) (Dict.keys (nodes ws)) ->
  create_node measure ep cp ws txt px py = ok (ws', nid) ->
  Cons ws' /\ parent_of ws' nid = None.
Proof.
  intros [ND [Hb [Hc Hd]]] Fr C.
  destruct (create_node_tree _ _ _ _ _ _ _ _ _ Fr C) as [-> [K [Ch [P _]]]].
  split; [|rewrite P, Z.eqb_refl; reflexivity].
  split; [rewrite K; apply nodup_snoc; auto|]. split; [|split].
  - intros k cs v G I. rewrite Ch in G. destruct (Z.eqb k (next_id ws)); [inversion G; subst; destruct I|].
    destruct (Hb k cs v G I) as [Pv Iv]. rewrite P, K.
    destruct (Z.eqb v (next_id ws)) eqn:E; [apply Z.eqb_eq in E; subst; contradiction|].
    split; [exact Pv | apply in_or_app; left; exact Iv].
  - intros v k G. rewrite P in G. destruct (Z.eqb v (next_id ws)); [discriminate|].
    destruct (Hc v k G) as [cs [Gc Ic]]. exists cs. rewrite Ch.
    destruct (Z.eqb k (next_id ws)) eqn:E; [|auto].
    apply Z.eqb_eq in E; subst. exfalso. apply Fr, children_of_keys. congruence.
  - intros k cs G. rewrite Ch in G. destruct (Z.eqb k (next_id ws)); [inversion G; constructor|eauto].
Qed.

Lemma filter_neq_notin (c : Z) l : ~ In c (filter (fun a => negb (Z.eqb a c)) l).
Proof. rewrite filter_In. intros [_ E]. rewrite Z.eqb_refl in E. discriminate. Qed.

Lemma filter_neq_id (c : Z) l : ~ In c l -> filter (fun a => negb (Z.eqb a c)) l = l.
Proof.
  intros N. apply forallb_filter_id, forallb_forall. intros b Ib.
  apply negb_true_iff, Z.eqb_neq. intros ->. contradiction.
Qed.

Lemma add_edge_tree ep cp ws p c ws' :
  Cons ws -> root_id ws <> Some c ->
  add_edge ep cp ws p c = ok ws' ->
  Cons ws' /\ Dict.keys (nodes ws') = Dict.keys (nodes ws) /\
  (forall v, parent_of ws' v = if Z.eqb v c then Some p else parent_of ws v) /\
  root_id ws' = root_id ws.
Proof.
  intros [ND [Hb [Hc Hd]]] Nr A. unfold add_edge in A.
  apply bind_inv in A as [ns1 [N1 A]].
  (* the first step removes [c] from its parent's list *)
  assert (K1 : Dict.keys ns1 = Dict.keys (nodes ws) /\
               forall k, option_map children (Dict.get ns1 k) =
                         option_map (filter (fun a => negb (Z.eqb a c))) (children_of ws k)).
  { destruct (parent_of ws c) as [q|] eqn:Pq.
    - destruct (Hc c q Pq) as [csq [Gq Iq]]. unfold children_of in Gq.
      destruct (Dict.get (nodes ws) q) as [qn|] eqn:Gqn; simpl in Gq; [|discriminate]. inversion Gq; subst csq.
      rewrite (lookup_get _ _ _ Gqn) in N1. simpl in N1.
      rewrite (proj2 (existsb_Zeqb c _) Iq) in N1. inversion N1; subst ns1. split.
      + rewrite keys_set. replace (Dict.mem (nodes ws) q) with true; [reflexivity|].
        symmetry. apply mem_get. eauto.
      + intros k. rewrite get_set. cbn [keq KeyEq_Z]. destruct (Z.eqb q k) eqn:E.
        * apply Z.eqb_eq in E; subst k. unfold children_of. rewrite Gqn. simpl.
          f_equal. apply remove_first_filter. apply (Hd q). unfold children_of. rewrite Gqn. reflexivity.
        * unfold children_of. destruct (Dict.get (nodes ws) k) as [kn|] eqn:Gk; [|reflexivity]. simpl.
          f_equal. symmetry. apply filter_neq_id. intros I.
          assert (Ck : children_of ws k = Some (children kn)) by (unfold children_of; rewrite Gk; reflexivity).
          destruct (Hb k _ c Ck I) as [Pc _]. rewrite Pq in Pc. inversion Pc; subst. rewrite Z.eqb_refl in E. discriminate.
    - inversion N1; subst ns1. split; [reflexivity|]. intros k.
      unfold children_of. destruct (Dict.get (nodes ws) k) as [kn|] eqn:Gk; [|reflexivity]. simpl.
      f_equal. symmetry. apply filter_neq_id. intros I.
      assert (Ck : children_of ws k = Some (children kn)) by (unfold children_of; rewrite Gk; reflexivity).
      destruct (Hb k _ c Ck I) as [Pc _]. congruence. }
  destruct K1 as [K1 C1].
  apply bind_inv in A as [pn [Gp A]]. apply lookup_ok in Gp. simpl in Gp.
  assert (Pn : exists csp, children_of ws p = Some csp /\ children pn = filter (fun a => negb (Z.eqb a c)) csp).
  { specialize (C1 p). rewrite Gp in C1. destruct (children_of ws p) as [csp|]; simpl in C1; inversion C1. eauto. }
  destruct Pn as [csp [Csp Epn]].
  assert (Ex : existsb (Z.eqb c) (children pn) = false).
  { destruct (existsb (Z.eqb c) (children pn)) eqn:E; [|reflexivity]. apply existsb_Zeqb in E.
    rewrite Epn in E. exfalso. exact (filter_neq_notin c csp E). }
  rewrite Ex in A.
  set (ws3 := set_nodes _ (Dict.set _ p _)) in A.
  assert (R3 : root_id ws3 = root_id ws) by reflexivity.
  assert (E3 : match root_id ws3 with Some r => if Z.eqb c r then set_root ws3 p else ws3 | None => ws3 end = ws3).
  { rewrite R3. destruct (root_id ws) as [r|] eqn:Rr; [|reflexivity].
    destruct (Z.eqb c r) eqn:E; [|reflexivity]. apply Z.eqb_eq in E; subst. contradiction. }
  rewrite E3 in A. clear E3.
  apply bind_inv in A as [cn [Gc A]]. apply lookup_ok in Gc.
  apply bind_inv in A as [ws4 [F4 A]].
  assert (T4 : tree_eq ws3 ws4 /\ root_id ws4 = root_id ws3).
  { destruct (custom cn).
    - inversion F4; subst. split; [apply tree_eq_refl|reflexivity].
    - apply bind_inv in F4 as [d [_ F4]]. apply refresh_fill_tree_eq in F4 as [T O].
      split; [|exact O]. eapply tree_eq_trans; [|exact T].
      apply (set_same_children_tree_eq ws3 c cn); auto. }
  destruct T4 as [T4 O4]. apply redraw_tree_eq in A as [T5 O5].
  assert (T := tree_eq_trans _ _ _ T4 T5).
  (* the state after the list updates *)
  assert (Mp : Dict.mem ns1 p = true) by (apply mem_get; eauto).
  assert (K3 : Dict.keys (nodes ws3) = Dict.keys (nodes ws)).
  { simpl. rewrite keys_set, Mp. exact K1. }
  assert (Ch3 : forall k, children_of ws3 k =
            if Z.eqb k p then Some (filter (fun a => negb (Z.eqb a c)) csp ++ [c])
            else option_map (filter (fun a => negb (Z.eqb a c))) (children_of ws k)).
  { intros k. unfold children_of at 1. simpl. rewrite get_set. cbn [keq KeyEq_Z].
    rewrite Z.eqb_sym. destruct (Z.eqb k p); simpl; [rewrite Epn; reflexivity|]. apply C1. }
  assert (P3 : forall v, parent_of ws3 v = if Z.eqb v c then Some p else parent_of ws v).
  { intros v. unfold parent_of at 1. simpl. rewrite get_set. cbn [keq KeyEq_Z].
    rewrite Z.eqb_sym. destruct (Z.eqb v c); reflexivity. }
  assert (Ic : In c (Dict.keys (nodes ws))) by (rewrite <- K3; eapply get_in_keys; exact Gc).
  assert (Cons3 : Cons ws3).
  { split; [rewrite K3; exact ND|]. split; [|split].
    - intros k cs v G I. rewrite Ch3 in G. rewrite P3, K3.
      destruct (Z.eqb k p) eqn:Ekp.
      + apply Z.eqb_eq in Ekp; subst k. inversion G; subst cs. apply in_app_or in I as [I|[<-|[]]].
        * apply filter_In in I as [I E]. rewrite negb_true_iff in E. rewrite E.
          exact (Hb p csp v Csp I).
        * rewrite Z.eqb_refl. auto.
      + destruct (children_of ws k) as [cs0|] eqn:G0; simpl in G; inversion G; subst cs.
        apply filter_In in I as [I E]. rewrite negb_true_iff in E. rewrite E. exact (Hb k cs0 v G0 I).
    - intros v k G. rewrite P3 in G. rewrite Ch3.
      destruct (Z.eqb v c) eqn:Evc.
      + inversion G; subst k. rewrite Z.eqb_refl. eexists; split; [reflexivity|].
        apply Z.eqb_eq in Evc; subst. apply in_or_app. right. left. reflexivity.
      + destruct (Hc v k G) as [cs0 [G0 I0]].
        assert (If : In v (filter (fun a => negb (Z.eqb a c)) cs0)) by (apply filter_In; rewrite Evc; auto).
        destruct (Z.eqb k p) eqn:Ekp.
        * apply Z.eqb_eq in Ekp; subst k. rewrite Csp in G0. inversion G0; subst.
          eexists; split; [reflexivity|]. apply in_or_app. left. exact If.
        * rewrite G0. eexists; split; [reflexivity|exact If].
    - intros k cs G. rewrite Ch3 in G. destruct (Z.eqb k p).
      + inversion G; subst. apply nodup_snoc; [apply NoDup_filter; exact (Hd p csp Csp)|apply filter_neq_notin].
      + destruct (children_of ws k) as [cs0|] eqn:G0; simpl in G; inversion G; subst.
        apply NoDup_filter. exact (Hd k cs0 G0). }
  split; [exact (cons_tree_eq _ _ T Cons3)|].
  destruct T as [K [Ch P]]. split; [rewrite K; exact K3|]. split.
  - intros v. rewrite P. apply P3.
  - rewrite O5, O4. reflexivity.
Qed.

(** ** Deletion *)

Definition inP (P : list Z) (v : Z) : bool := existsb (Z.eqb v) P.

(** The state after the deletion loop has processed the ids [P]: those
    nodes are gone, the remaining lists no longer name them, and a parent
    pointer to one of them has become [None]. *)
Definition DelInv (ws0 : Workspace) (P : list Z) (ws : Workspace) : Prop :=
  Dict.keys (nodes ws) = filter (fun k => negb (inP P k)) (Dict.keys (nodes ws0)) /\
  (forall k, children_of ws k =
     if inP P k then None else option_map (filter (fun a => negb (inP P a))) (children_of ws0 k)) /\
  (forall v, parent_of ws v =
     if inP P v then None
     else match parent_of ws0 v with Some q => if inP P q then None else Some q | None => None end) /\
  root_id ws = root_id ws0.

Lemma inP_snoc P cid v : inP (P ++ [cid]) v = inP P v || Z.eqb v cid.
Proof. unfold inP. rewrite existsb_app. simpl. rewrite orb_false_r. reflexivity. Qed.

Lemma filter_filter_Z (f g : Z -> bool) l : filter f (filter g l) = filter (fun a => g a && f a) l.
Proof.
  induction l as [|a l IH]; simpl; [reflexivity|].
  destruct (g a); simpl; [destruct (f a); simpl; rewrite IH; reflexivity | exact IH].
Qed.

Lemma filter_snoc_P P cid l :
  filter (fun a => negb (Z.eqb a cid)) (filter (fun a => negb (inP P a)) l) =
  filter (fun a => negb (inP (P ++ [cid]) a)) l.
Proof.
  rewrite filter_filter_Z. apply filter_ext. intros a. rewrite inP_snoc.
  destruct (inP P a), (Z.eqb a cid); reflexivity.
Qed.

Lemma fold_set_none_get (l : list Z) (par : Dict.t Z (option Z)) v :
  Dict.get (fold_left (fun par ch => Dict.set par ch None) l par) v =
  if existsb (Z.eqb v) l then Some None else Dict.get par v.
Proof.
  revert par. induction l as [|a l IH]; intros par; simpl; [reflexivity|].
  rewrite IH, get_set. cbn [keq KeyEq_Z]. rewrite (Z.eqb_sym a v).
  destruct (Z.eqb v a), (existsb (Z.eqb v) l); reflexivity.
Qed.

Lemma keys_pop_Z {V} (d : Dict.t Z V) k :
  Dict.keys (Dict.pop d k) = filter (fun a => negb (Z.eqb a k)) (Dict.keys d).
Proof.
  unfold Dict.pop, Dict.keys. induction d as [|[k0 v0] d IH]; simpl; [reflexivity|].
  cbn [keq KeyEq_Z] in *. destruct (Z.eqb k0 k); simpl; rewrite IH; reflexivity.
Qed.

Lemma DelInv_nil ws0 : DelInv ws0 [] ws0.
Proof.
  split; [|split; [|split]]; simpl.
  - symmetry. apply forallb_filter_id, forallb_forall. reflexivity.
  - intros k. destruct (children_of ws0 k) as [cs|]; simpl; [|reflexivity].
    f_equal. symmetry. apply forallb_filter_id, forallb_forall. reflexivity.
  - intros v. destruct (parent_of ws0 v); reflexivity.
  - reflexivity.
Qed.

Lemma delete_one_step ws0 P ws cid ws' :
  Cons ws0 -> DelInv ws0 P ws -> delete_one ws cid = ok ws' ->
  inP P cid = false /\ DelInv ws0 (P ++ [cid]) ws'.
Proof.
  intros [ND [Hb [Hc Hd]]] [K [Ch [Pa Ro]]] D. unfold delete_one in D.
  apply bind_inv in D as [cn [Gcn D]]. apply lookup_ok in Gcn.
  assert (Ccid := Ch cid). unfold children_of at 1 in Ccid. rewrite Gcn in Ccid. simpl in Ccid.
  destruct (inP P cid) eqn:Pcid; [discriminate|].
  destruct (children_of ws0 cid) as [cs0|] eqn:G0; simpl in Ccid; [|discriminate].
  injection Ccid as Ecn. split; [reflexivity|].
  set (ws1 := set_parent ws (fold_left _ (children cn) (parent ws))) in D.
  assert (P1 : forall v, parent_of ws1 v = if existsb (Z.eqb v) (children cn) then None else parent_of ws v).
  { intros v. unfold parent_of at 1. simpl. rewrite fold_set_none_get.
    destruct (existsb (Z.eqb v) (children cn)); reflexivity. }
  (* a list other than [cid]'s that names [cid] belongs to [cid]'s parent *)
  assert (F : forall k cs, k <> cid -> children_of ws k = Some cs -> In cid cs -> parent_of ws1 cid = Some k).
  { intros k cs Nk G I. rewrite Ch in G. destruct (inP P k) eqn:Pk; [discriminate|].
    destruct (children_of ws0 k) as [csk|] eqn:Gk; simpl in G; inversion G; subst cs.
    apply filter_In in I as [I _]. destruct (Hb k csk cid Gk I) as [Pc _].
    rewrite P1. destruct (existsb (Z.eqb cid) (children cn)) eqn:E.
    - apply existsb_Zeqb in E. rewrite Ecn in E. apply filter_In in E as [E _].
      destruct (Hb cid cs0 cid G0 E) as [Pc' _]. congruence.
    - rewrite Pa, Pcid, Pc, Pk. reflexivity. }
  apply bind_inv in D as [ws2 [D2 D]]. inversion D; subst ws'; clear D.
  assert (W2 : Dict.keys (nodes ws2) = Dict.keys (nodes ws) /\ parent ws2 = parent ws1 /\
               forall k, k <> cid -> children_of ws2 k =
                 option_map (filter (fun a => negb (Z.eqb a cid))) (children_of ws k)).
  { destruct (parent_of ws1 cid) as [q|] eqn:Pq.
    - apply bind_inv in D2 as [qn [Gq D2]]. apply lookup_ok in Gq. simpl in Gq.
      destruct (existsb (Z.eqb cid) (children qn)) eqn:Eq; inversion D2; subst ws2; clear D2.
      + split; [simpl; rewrite keys_set; replace (Dict.mem (nodes ws) q) with true; [reflexivity|];
                symmetry; apply mem_get; eauto|].
        split; [reflexivity|]. intros k Nk. unfold children_of at 1. simpl. rewrite get_set. cbn [keq KeyEq_Z].
        destruct (Z.eqb q k) eqn:E.
        * apply Z.eqb_eq in E; subst k. unfold children_of. rewrite Gq. simpl. f_equal.
          apply remove_first_filter.
          assert (Cq := Ch q). unfold children_of at 1 in Cq. rewrite Gq in Cq. simpl in Cq.
          destruct (inP P q); [discriminate|]. destruct (children_of ws0 q) as [csq|] eqn:Gcq; simpl in Cq; [|discriminate].
          injection Cq as Cq. rewrite Cq. apply NoDup_filter. exact (Hd q csq Gcq).
        * fold (children_of ws k). destruct (children_of ws k) as [cs|] eqn:Gk; simpl; [|reflexivity].
          f_equal. symmetry. apply filter_neq_id. intros I. specialize (F k cs Nk Gk I).
          try rewrite Pq in F. inversion F; subst. rewrite Z.eqb_refl in E. discriminate.
      + split; [reflexivity|]. split; [reflexivity|]. intros k Nk. change (children_of ws1 k) with (children_of ws k).
        destruct (children_of ws k) as [cs|] eqn:Gk; simpl; [|reflexivity].
        f_equal. symmetry. apply filter_neq_id. intros I. specialize (F k cs Nk Gk I).
        try rewrite Pq in F. inversion F; subst q.
        unfold children_of in Gk. rewrite Gq in Gk. simpl in Gk. inversion Gk; subst cs.
        apply existsb_Zeqb in I. congruence.
    - inversion D2; subst ws2. split; [reflexivity|]. split; [reflexivity|]. intros k Nk.
      change (children_of ws1 k) with (children_of ws k).
      destruct (children_of ws k) as [cs|] eqn:Gk; simpl; [|reflexivity].
      f_equal. symmetry. apply filter_neq_id. intros I. specialize (F k cs Nk Gk I). congruence. }
  destruct W2 as [K2 [Pr2 C2]].
  split; [|split; [|split]].
  - simpl. rewrite keys_pop_Z, K2, K. apply filter_snoc_P.
  - intros k. unfold children_of at 1. simpl. rewrite get_pop. cbn [keq KeyEq_Z]. rewrite inP_snoc.
    rewrite (Z.eqb_sym cid k). destruct (Z.eqb k cid) eqn:E; [rewrite orb_true_r; reflexivity|].
    rewrite orb_false_r. fold (children_of ws2 k). rewrite C2 by (apply Z.eqb_neq; exact E).
    rewrite Ch. destruct (inP P k); [reflexivity|].
    destruct (children_of ws0 k); simpl; [|reflexivity]. f_equal. apply filter_snoc_P.
  - intros v. unfold parent_of at 1. simpl. rewrite get_pop. cbn [keq KeyEq_Z]. rewrite Pr2.
    rewrite inP_snoc, (Z.eqb_sym cid v). destruct (Z.eqb v cid) eqn:E; [rewrite orb_true_r; reflexivity|].
    rewrite orb_false_r. fold (parent_of ws1 v). rewrite P1.
    destruct (existsb (Z.eqb v) (children cn)) eqn:Ev.
    + apply existsb_Zeqb in Ev. rewrite Ecn in Ev. apply filter_In in Ev as [Ev Pv].
      apply negb_true_iff in Pv. rewrite Pv. rewrite (proj1 (Hb cid cs0 v G0 Ev)).
      rewrite inP_snoc, Z.eqb_refl, orb_true_r. reflexivity.
    + rewrite Pa. destruct (inP P v) eqn:Pv; [reflexivity|].
      destruct (parent_of ws0 v) as [q|] eqn:Pq; [|reflexivity].
      rewrite inP_snoc. destruct (Z.eqb q cid) eqn:Eq; [|rewrite orb_false_r; reflexivity].
      apply Z.eqb_eq in Eq; subst q. exfalso.
      destruct (Hc v cid Pq) as [cs [Gc Ic]]. rewrite G0 in Gc. inversion Gc; subst cs.
      assert (In v (children cn)) by (rewrite Ecn; apply filter_In; rewrite Pv; auto).
      apply (proj2 (existsb_Zeqb v _)) in H. congruence.
  - simpl. rewrite <- Ro. destruct (parent_of ws1 cid); [apply bind_inv in D2 as [qn [_ D2]]; destruct (existsb _ _)|];
      inversion D2; reflexivity.
Qed.

Lemma mfold_delete_one ws0 P ws ids ws' :
  Cons ws0 -> DelInv ws0 P ws -> mfold delete_one ws ids = ok ws' -> DelInv ws0 (P ++ ids) ws'.
Proof.
  revert P ws. induction ids as [|cid ids IH]; intros P ws C I M; simpl in M.
  - inversion M; subst. rewrite app_nil_r. exact I.
  - apply bind_inv in M as [ws1 [D M]]. destruct (delete_one_step ws0 P ws cid ws1 C I D) as [_ I1].
    replace (P ++ cid :: ids) with ((P ++ [cid]) ++ ids) by (rewrite <- app_assoc; reflexivity).
    exact (IH _ _ C I1 M).
Qed.

Lemma inP_In P v : inP P v = true <-> In v P.
Proof. apply existsb_Zeqb. Qed.

Lemma delinv_cons ws0 P ws : Cons ws0 -> DelInv ws0 P ws -> Cons ws.
Proof.
  intros [ND [Hb [Hc Hd]]] [K [Ch [Pa _]]].
  split; [rewrite K; apply NoDup_filter; exact ND|]. split; [|split].
  - intros k cs v G I. rewrite Ch in G. destruct (inP P k) eqn:Pk; [discriminate|].
    destruct (children_of ws0 k) as [cs0|] eqn:G0; simpl in G; inversion G; subst cs.
    apply filter_In in I as [I Pv]. apply negb_true_iff in Pv.
    destruct (Hb k cs0 v G0 I) as [Pr Iv]. rewrite Pa, Pv, Pr, Pk, K. split; [reflexivity|].
    apply filter_In. rewrite Pv. auto.
  - intros v k G. rewrite Pa in G. destruct (inP P v) eqn:Pv; [discriminate|].
    destruct (parent_of ws0 v) as [q|] eqn:Pq; [|discriminate].
    destruct (inP P q) eqn:Pq'; inversion G; subst q.
    destruct (Hc v k Pq) as [cs [G0 I]]. rewrite Ch, Pq', G0. simpl. eexists; split; [reflexivity|].
    apply filter_In. rewrite Pv. auto.
  - intros k cs G. rewrite Ch in G. destruct (inP P k); [discriminate|].
    destruct (children_of ws0 k) as [cs0|] eqn:G0; simpl in G; inversion G; subst cs.
    apply NoDup_filter. exact (Hd k cs0 G0).
Qed.

(** [_collect_subtree] returns a list closed under children, whose elements
    are the start node or children of its elements. *)
Definition Closed (ws : Workspace) (L : list Z) : Prop :=
  forall v, In v L -> exists cs, children_of ws v = Some cs /\ incl cs L.

Definition Origin (ws : Workspace) (L S : list Z) : Prop :=
  forall v, In v L -> In v S \/ exists y cs, In y L /\ children_of ws y = Some cs /\ In v cs.

Lemma collect_dfs_closed ws fuel acc nid res :
  collect_dfs ws fuel acc nid = ok res ->
  exists L, res = acc ++ L /\ In nid L /\ Closed ws L /\ Origin ws L [nid].
Proof.
  revert acc nid res. induction fuel as [|fuel IH]; intros acc nid res D; simpl in D; [discriminate|].
  apply bind_inv in D as [n [Gn D]]. apply lookup_ok in Gn.
  assert (M : forall cs acc res, mfold (collect_dfs ws fuel) acc cs = ok res ->
            exists L, res = acc ++ L /\ incl cs L /\ Closed ws L /\ Origin ws L cs).
  { induction cs as [|c cs IHc]; intros acc' res' Mf; simpl in Mf.
    - inversion Mf; subst. exists []. rewrite app_nil_r. split; [reflexivity|].
      split; [intros a []|]. split; intros v [].
    - apply bind_inv in Mf as [r1 [R1 Mf]]. destruct (IH _ _ _ R1) as [L1 [E1 [I1 [Cl1 O1]]]].
      destruct (IHc _ _ Mf) as [L2 [E2 [I2 [Cl2 O2]]]]. subst r1 res'.
      exists (L1 ++ L2). split; [rewrite app_assoc; reflexivity|]. split; [|split].
      + intros a [<-|Ia]; apply in_or_app; [left; exact I1 | right; exact (I2 a Ia)].
      + intros v Iv. apply in_app_or in Iv as [Iv|Iv].
        * destruct (Cl1 v Iv) as [cs' [G Inc]]. exists cs'. split; [exact G|]. intros a Ia. apply in_or_app. left. auto.
        * destruct (Cl2 v Iv) as [cs' [G Inc]]. exists cs'. split; [exact G|]. intros a Ia. apply in_or_app. right. auto.
      + intros v Iv. apply in_app_or in Iv as [Iv|Iv].
        * destruct (O1 v Iv) as [[<-|[]]|[y [cs' [Iy [G Ic]]]]]; [left; left; reflexivity|].
          right. exists y, cs'. split; [apply in_or_app; left; exact Iy|auto].
        * destruct (O2 v Iv) as [Ic|[y [cs' [Iy [G Ic]]]]]; [left; right; exact Ic|].
          right. exists y, cs'. split; [apply in_or_app; right; exact Iy|auto]. }
  destruct (M _ _ _ D) as [L [E [Inc [Cl O]]]]. subst res.
  exists (nid :: L). split; [rewrite <- app_assoc; reflexivity|]. split; [left; reflexivity|]. split.
  - intros v [<-|Iv].
    + exists (children n). split; [unfold children_of; rewrite Gn; reflexivity|]. intros a Ia. right. auto.
    + destruct (Cl v Iv) as [cs' [G I']]. exists cs'. split; [exact G|]. intros a Ia. right. auto.
  - intros v [<-|Iv]; [left; left; reflexivity|]. right.
    destruct (O v Iv) as [Ic|[y [cs' [Iy [G Ic]]]]].
    + exists nid, (children n). split; [left; reflexivity|]. split; [unfold children_of; rewrite Gn; reflexivity|exact Ic].
    + exists y, cs'. split; [right; exact Iy|auto].
Qed.

Lemma delete_selected_tree ep cp fuel ws nid ws' :
  Cons ws -> delete_selected ep cp fuel ws nid = ok ws' ->
  Cons ws' /\ (Rooted ws -> root_id ws <> Some nid -> Rooted ws').
Proof.
  intros C D. unfold delete_selected in D. destruct (Z.eqb nid 0).
  { inversion D; subst. auto. }
  apply bind_inv in D as [_u [_ D]]. apply bind_inv in D as [ids [Ids D]].
  apply bind_inv in D as [ws1 [M D]].
  pose proof (mfold_delete_one ws [] ws ids ws1 C (DelInv_nil ws) M) as I1. simpl in I1.
  set (ws2 := match root_id ws1 with Some r => _ | None => _ end) in D.
  assert (T2 : tree_eq ws1 ws2).
  { unfold ws2. destruct (root_id ws1) as [r|]; [destruct (existsb _ _)|];
    (split; [reflexivity|split; intros; reflexivity]). }
  apply redraw_tree_eq in D as [T3 O3].
  assert (T := tree_eq_trans _ _ _ T2 T3).
  split; [exact (cons_tree_eq _ _ T (delinv_cons _ _ _ C I1))|].
  intros Ro Nr. apply (rooted_tree_eq ws2); [exact T3|exact O3|].
  unfold collect_subtree in Ids. destruct (collect_dfs_closed _ _ _ _ _ Ids) as [L [EL [In_nid [Cl O]]]].
  simpl in EL. subst L.
  destruct C as [ND [Hb [Hc Hd]]]. destruct I1 as [K1 [Ch1 [Pa1 Ro1]]].
  assert (Ne : nodes ws <> []).
  { destruct (Cl nid In_nid) as [cs [G _]]. intros E. unfold children_of in G. rewrite E in G. discriminate. }
  destruct (Ro Ne) as [r [Rr [Ir Fr]]].
  assert (Nri : inP ids r = false).
  { destruct (inP ids r) eqn:E; [|reflexivity]. apply inP_In in E. exfalso.
    destruct (O r E) as [[<-|[]]|[y [cs [_ [G Ic]]]]]; [apply Nr; exact Rr|].
    destruct (Hb y cs r G Ic) as [Pr _]. rewrite (proj2 (Fr r Ir) eq_refl) in Pr. discriminate. }
  assert (E2 : ws2 = ws1).
  { unfold ws2. rewrite Ro1, Rr. unfold inP in Nri. rewrite Nri. reflexivity. }
  clearbody ws2. subst ws2.
  intros _. exists r. split; [rewrite Ro1; exact Rr|].
  assert (Hk : forall v, In v (Dict.keys (nodes ws1)) <-> In v (Dict.keys (nodes ws)) /\ inP ids v = false).
  { intros v. rewrite K1, filter_In, negb_true_iff. reflexivity. }
  split; [apply Hk; auto|]. intros v Iv. apply Hk in Iv as [Iv Pv].
  rewrite Pa1, Pv.
  assert (Ep : match parent_of ws v with Some q => if inP ids q then None else Some q | None => None end
               = parent_of ws v).
  { destruct (parent_of ws v) as [q|] eqn:Pq; [|reflexivity].
    destruct (inP ids q) eqn:Eq; [|reflexivity].
    exfalso. apply inP_In in Eq. destruct (Cl q Eq) as [cs [G Inc]].
    destruct (Hc v q Pq) as [cs' [G' Ic]]. rewrite G in G'. inversion G'; subst cs'.
    apply Inc, inP_In in Ic. congruence. }
  rewrite Ep. apply Fr. exact Iv.
Qed.

(** ** Re-rooting and adding a child *)

Lemma set_root_tree ws nid :
  parent_of ws nid = None -> tree_eq ws (set_root ws nid) /\ root_id (set_root ws nid) = Some nid.
Proof.
  intros P. split; [|reflexivity]. split; [reflexivity|]. split; [reflexivity|].
  intros v. unfold parent_of at 1. simpl. rewrite get_set. cbn [keq KeyEq_Z].
  destruct (Z.eqb nid v) eqn:E; [apply Z.eqb_eq in E; subst; symmetry; exact P|reflexivity].
Qed.

Lemma add_child_tree measure ep cp ws sel ws' :
  Cons ws -> Rooted ws -> ~ In (next_id ws) (Dict.keys (nodes ws)) ->
  add_child measure ep cp ws sel = ok ws' -> Cons ws' /\ Rooted ws'.
Proof.
  intros C Ro Fr A. unfold add_child in A. destruct (Z.eqb sel 0).
  { inversion A; subst. auto. }
  apply bind_inv in A as [pn [Gp A]]. apply lookup_ok in Gp.
  match type of A with context [find_free_position ?ns ?a ?b] => destruct (find_free_position ns a b) as [nx ny] end.
  apply bind_inv in A as [_d [_ A]]. apply bind_inv in A as [[ws1 nid] [Cr A]].
  destruct (create_node_tree _ _ _ _ _ _ _ _ _ Fr Cr) as [Enid [K1 [Ch1 [P1 R1]]]].
  destruct (create_node_cons _ _ _ _ _ _ _ _ _ C Fr Cr) as [C1 _].
  assert (Ne : nodes ws <> []) by (intros E; rewrite E in Gp; discriminate).
  destruct (Ro Ne) as [r [Rr [Ir Fr']]]. rewrite Rr in R1.
  assert (Nr : nid <> r) by (intros ->; subst r; contradiction).
  destruct (add_edge_tree ep cp ws1 sel nid ws' C1 ltac:(rewrite R1; congruence) A) as [C' [K' [P' R']]].
  split; [exact C'|]. intros _. exists r. rewrite R', R1. split; [reflexivity|].
  rewrite K', K1. split; [apply in_or_app; left; exact Ir|].
  intros v Iv. rewrite P'. destruct (Z.eqb v nid) eqn:E.
  - apply Z.eqb_eq in E; subst v. split; [discriminate|intros ->; contradiction].
  - rewrite P1, E. apply in_app_or in Iv as [Iv|[<-|[]]]; [apply Fr'; exact Iv|].
    rewrite Z.eqb_refl in E. discriminate.
Qed.

(** A text measurement that returns no extent (sizes fall back to the
    minimum node size). *)
Definition measure_min (s : string) : Q * Q := (0, 0)%Q.

(** The value of a successful run, or a default. *)
Definition res_or {A} (r : Res A) (d : A) : A := match r with inl a => a | inr _ => d end.

(** ** Fill of a created node *)

Lemma auto_layout_keeps_frame ep cp cw ch fuel ws ws' :
  auto_layout ep cp cw ch fuel ws = ok ws' -> layout_frame ws ws'.
Proof.
  intros H. unfold auto_layout in H.
  destruct (Dict.keys (nodes ws)) as [|k ks]; [inversion H; subst; apply layout_frame_refl|].
  destruct (from_canvas_point ws _ _) as [bx by_].
  apply bind_inv in H as [dirs [_ H]]. apply bind_inv in H as [depths [_ H]].
  apply bind_inv in H as [slots [_ H]]. apply bind_inv in H as [ws1 [M H]].
  eapply redraw_frame; [|exact H]. eapply mfold_place_frame; [apply layout_frame_refl|exact M].
Qed.


Lemma palette_color_nonempty i : (i < 10)%nat -> nth i PALETTE_COLORS ""%string <> ""%string.
Proof. intros Lt. do 10 (destruct i as [|i]; [discriminate|]). lia. Qed.

Lemma create_node_new_node measure ep cp ws txt px py ws' nid :
  create_node measure ep cp ws txt px py = ok (ws', nid) ->
  exists n, Dict.get (nodes ws') nid = Some n /\ custom n = true /\
    fill n = Some (nth (Z.to_nat (palette_index ws mod 10)) PALETTE_COLORS ""%string).
Proof.
  intros C. unfold create_node in C.
  destruct (find_free_position (nodes ws) px py) as [nx ny].
  unfold next_auto_color in C. cbv beta iota zeta in C.
  set (col := nth _ PALETTE_COLORS ""%string) in C.
  assert (Col : col <> ""%string).
  { apply palette_color_nonempty. change (Z.of_nat (List.length PALETTE_COLORS)) with 10.
    simpl. pose proof (Z.mod_pos_bound (palette_index ws) 10 ltac:(lia)). lia. }
  apply bind_inv in C as [ws2 [R2 C]]. apply bind_inv in C as [ws3 [R3 C]].
  apply bind_inv in C as [ws4 [R4 C]].
  unfold refresh_fill, Dict.lookup in R2.
  cbn [nodes parent set_parent set_nodes set_palette_index set_next_id] in R2.
  rewrite get_set_same in R2. cbv beta iota delta [bind ok fill_or fill] in R2.
  destruct (String.eqb col "") eqn:Ec; [apply String.eqb_eq in Ec; contradiction|].
  simpl in R2. inversion R2; subst ws2; clear R2.
  unfold update_node_size, Dict.lookup in R3. cbn [nodes set_nodes] in R3.
  rewrite get_set_same in R3. cbv beta iota delta [bind ok] in R3.
  destruct (measure _) as [wd ht]. inversion R3; subst ws3; clear R3.
  destruct (redraw_frame ep cp _ _ ws4 (layout_frame_refl _) R4) as [_ [N4 _]].
  simpl in N4. destruct (N4 (next_id ws) _ (get_set_same _ _ _)) as [n [G [_ [_ [_ [_ [Cu F]]]]]]].
  simpl in Cu, F.
  assert (Nodes : nodes (match root_id ws4 with None => set_root ws4 (next_id ws) | Some _ => ws4 end) = nodes ws4)
    by (destruct (root_id ws4); reflexivity).
  inversion C; subst; clear C. exists n. rewrite Nodes. split; [exact G|]. split; [exact Cu|].
  rewrite (F eq_refl). reflexivity.
Qed.

(** ** Zoom *)

Definition ZOOM_MIN : Q := 2 # 5.
Definition ZOOM_MAX : Q := 5 # 2.

Definition set_view ws s ox oy := mkWs (nodes ws) (parent ws) (edge_offsets ws) (palette_index ws)
  (root_id ws) (next_id ws) s ox oy.

(** [zoom] with an explicit screen origin (the caller passes the canvas
    centre when the source's [origin] is [None]). *)
Definition zoom ep cp (ws : Workspace) (factor : Q) (origin : Q * Q) : Res Workspace :=
  let old_scale := scale ws in
  let new_scale := Qmax ZOOM_MIN (Qmin ZOOM_MAX (old_scale * factor)) in
  if qlt (Qabs (new_scale - old_scale)) (1 # 1000) then ok ws
  else
    let '(cx, cy) := origin in
    let scale_ratio := if Qeq_bool old_scale 0 then 1%Q else (new_scale / old_scale)%Q in
    let ws := set_view ws new_scale (cx - scale_ratio * (cx - offset_x ws))%Q
                                    (cy - scale_ratio * (cy - offset_y ws))%Q in
    redraw ep cp ws.

(** ** The ellipse exit point (_edge_exit_point), over the reals *)

(** The semi-axes [a], [b] of [_edge_exit_point]: built from the constants
    [NODE_W], [NODE_H] and the zoom factor. *)
Definition exit_axes (s : R) : R * R :=
  (Rmax (IZR NODE_W * s / 2) 1, Rmax (IZR NODE_H * s / 2) 1)%R.

(** The point [(sx, sy)] before the margin is added, and [(vx, vy)]. *)
Definition exit_base (s cx cy tx ty : R) : (R * R) * (R * R) :=
  let '(a, b) := exit_axes s in
  let dx0 := (tx - cx)%R in
  let dy0 := (ty - cy)%R in
  let '(dx, dy) :=
    if Rlt_dec (Rabs dx0) (1 / 10000) then
      if Rlt_dec (Rabs dy0) (1 / 10000) then (0%R, b) else (dx0, dy0)
    else (dx0, dy0) in
  let f0 := sqrt (dx * dx / (a * a) + dy * dy / (b * b)) in
  let factor := if Req_EM_T f0 0 then 1%R else f0 in
  let t := (1 / factor)%R in
  ((cx + dx * t, cy + dy * t)%R, (dx * t, dy * t)%R).

(** [_edge_exit_point]: the centre is [_node_center]. *)
Definition edge_exit_point_R (ws : Workspace) (nid : Z) (tx ty : R) : Res (R * R) :=
  let* c := node_center ws nid in
  let s := Q2R (scale ws) in
  let '((sx, sy), (vx, vy)) := exit_base s (Q2R (fst c)) (Q2R (snd c)) tx ty in
  let margin := Rmax (3 / 2) (s * (6 / 5)) in
  let l := sqrt (vx * vx + vy * vy) in
  let length := if Req_EM_T l 0 then 1%R else l in
  ok ((sx + vx / length * margin)%R, (sy + vy / length * margin)%R).

(** A workspace with one node twice as wide as [NODE_W], at the origin. *)
Definition ws_wide : Workspace :=
  mkWs [(1, mkNode "wide" 0 0 [] None false (Some 320%Q) (Some 56%Q))] [(1, None)] [] 0 (Some 1) 2 1 0 0.

Lemma exit_axes_pos s : (0 < fst (exit_axes s) /\ 0 < snd (exit_axes s))%R.
Proof. unfold exit_axes. simpl. split; apply Rlt_le_trans with 1%R; try lra; apply Rmax_r. Qed.

Lemma ellipse_scaled (a b dx dy : R) :
  (0 < a)%R -> (0 < b)%R -> (dx <> 0 \/ dy <> 0)%R ->
  let f0 := sqrt (dx * dx / (a * a) + dy * dy / (b * b)) in
  let factor := if Req_EM_T f0 0 then 1%R else f0 in
  ((dx * (1 / factor) / a) ^ 2 + (dy * (1 / factor) / b) ^ 2 = 1)%R.
Proof.
  intros Ha Hb Nz f0 factor.
  set (S := (dx * dx / (a * a) + dy * dy / (b * b))%R) in f0.
  assert (Sp : (0 < S)%R).
  { unfold S. destruct Nz as [N|N].
    - apply Rplus_lt_le_0_compat.
      + apply Rdiv_lt_0_compat; [|nra]. destruct (Rlt_or_le dx 0); nra.
      + apply Rmult_le_pos; [nra|]. left. apply Rinv_0_lt_compat. nra.
    - apply Rplus_le_lt_0_compat.
      + apply Rmult_le_pos; [nra|]. left. apply Rinv_0_lt_compat. nra.
      + apply Rdiv_lt_0_compat; [|nra]. destruct (Rlt_or_le dy 0); nra. }
  assert (Fp : (0 < f0)%R) by (apply sqrt_lt_R0; exact Sp).
  assert (E : factor = f0) by (unfold factor; destruct (Req_EM_T f0 0); [lra|reflexivity]).
  rewrite E. assert (Sq : (f0 * f0 = S)%R) by (apply sqrt_sqrt; lra).
  replace ((dx * (1 / f0) / a) ^ 2 + (dy * (1 / f0) / b) ^ 2)%R with (S / (f0 * f0))%R
    by (unfold S; field; repeat split; lra).
  rewrite Sq. field. lra.
Qed.

(** ** The symmetric position sequence *)

(** The offsets [_symmetrical_positions] runs through: [o], [o + 1], ... *)
Fixpoint qiter (k : nat) (o : Q) : Q :=
  match k with
  | O => o
  | S k' => (qiter k' o + 1)%Q
  end.

(** What [j] rounds of the loop append: [-o, o, -(o + 1), o + 1, ...]. *)
Definition sym_pairs (o : Q) (j : nat) : list Q :=
  flat_map (fun i => [Qopp (qiter i o); qiter i o]) (seq 0 j).

(** The sequence as the layout section describes it: [k - (L - 1) / 2] for
    [k = 0 .. L - 1], in halves for even [L] and in units for odd [L]. *)
Definition sym_spec (L : nat) : list Q :=
  map (fun k => if Nat.even L then (2 * Z.of_nat k - Z.of_nat L + 1) # 2
                else (Z.of_nat k - Z.of_nat (L / 2)) # 1) (seq 0 L).

Definition qsum (l : list Q) : Q := fold_right Qplus 0%Q l.

Definition entry_nid (e : Entry) : Z := let '(_, _, nid, _) := e in nid.
Definition entry_parent (e : Entry) : option Z := let '(_, _, _, p) := e in p.

Lemma insert_by_perm {A} (lt : A -> A -> bool) a l : Permutation (insert_by lt a l) (a :: l).
Proof.
  induction l as [|b l IH]; simpl; [reflexivity|].
  destruct (lt a b); [reflexivity|].
  eapply perm_trans; [apply perm_skip, IH|apply perm_swap].
Qed.

Lemma sort_by_perm {A} (lt : A -> A -> bool) l : Permutation (sort_by lt l) l.
Proof.
  unfold sort_by.
  assert (G : forall acc, Permutation (fold_left (fun acc a => insert_by lt a acc) l acc) (l ++ acc)).
  { induction l as [|a l IH]; intros acc; simpl; [reflexivity|].
    eapply perm_trans; [apply IH|].
    eapply perm_trans; [apply Permutation_app_head, insert_by_perm|].
    symmetry. apply Permutation_middle. }
  rewrite <- (app_nil_r l) at 2. apply G.
Qed.

Lemma insert_by_sorted a l :
  StronglySorted Qlt l -> Forall (fun b => ~ (a == b)%Q) l ->
  StronglySorted Qlt (insert_by qlt a l).
Proof.
  induction l as [|b l IH]; intros S F; simpl.
  - repeat constructor.
  - inversion S as [|? ? Sl Fb]; subst. inversion F as [|? ? Nab Fl]; subst.
    destruct (qlt a b) eqn:L.
    + apply qlt_iff in L. constructor; [exact S|]. constructor; [exact L|].
      eapply Forall_impl; [|exact Fb]. intros c Hc. eapply Qlt_trans; eauto.
    + assert (Lb : (b < a)%Q).
      { unfold qlt in L. apply negb_false_iff, Qle_bool_iff in L.
        apply Qle_lteq in L as [L|L]; [exact L|]. exfalso. apply Nab. symmetry. exact L. }
      constructor; [apply IH; assumption|].
      apply Forall_forall. intros c Hc.
      apply (Permutation_in _ (insert_by_perm qlt a l)) in Hc as [<-|Hc]; [exact Lb|].
      rewrite Forall_forall in Fb. apply Fb, Hc.
Qed.

Lemma sort_by_sorted l :
  ForallOrdPairs (fun a b => ~ (a == b)%Q) l -> StronglySorted Qlt (sort_by qlt l).
Proof.
  unfold sort_by.
  assert (G : forall acc, StronglySorted Qlt acc ->
    ForallOrdPairs (fun a b => ~ (a == b)%Q) l ->
    (forall u v, In u acc -> In v l -> ~ (u == v)%Q) ->
    StronglySorted Qlt (fold_left (fun acc a => insert_by qlt a acc) l acc)).
  { induction l as [|a l IH]; intros acc S P D; simpl; [exact S|].
    inversion P as [|? ? Fa Pl]; subst. apply IH; [| exact Pl |].
    - apply insert_by_sorted; [exact S|]. apply Forall_forall. intros b Hb E.
      apply (D b a Hb); [left; reflexivity|]. symmetry. exact E.
    - intros u v Hu Hv. apply (Permutation_in _ (insert_by_perm qlt a acc)) in Hu as [<-|Hu].
      + rewrite Forall_forall in Fa. apply Fa, Hv.
      + apply D; [exact Hu|right; exact Hv]. }
  intros P. apply G; [constructor|exact P|]. intros u v [].
Qed.

Lemma sorted_unique l1 l2 :
  StronglySorted Qlt l1 -> StronglySorted Qlt l2 ->
  (forall q, In q l1 <-> In q l2) -> l1 = l2.
Proof.
  revert l2. induction l1 as [|a t1 IH]; intros [|b t2] S1 S2 M.
  - reflexivity.
  - exfalso. apply (M b). left. reflexivity.
  - exfalso. apply (M a). left. reflexivity.
  - inversion S1 as [|? ? St1 Fa]; subst. inversion S2 as [|? ? St2 Fb]; subst.
    rewrite Forall_forall in Fa, Fb.
    assert (Eab : a = b).
    { destruct (proj1 (M a) (or_introl eq_refl)) as [E|Ia]; [symmetry; exact E|].
      destruct (proj2 (M b) (or_introl eq_refl)) as [E|Ib]; [exact E|].
      exfalso. apply (Qlt_irrefl a). apply Qlt_trans with b; [apply Fa, Ib|apply Fb, Ia]. }
    subst b. f_equal. apply IH; [exact St1|exact St2|].
    intros q. split; intros Hq.
    + destruct (proj1 (M q) (or_intror Hq)) as [<-|I]; [|exact I].
      exfalso. apply (Qlt_irrefl a). apply Fa, Hq.
    + destruct (proj2 (M q) (or_intror Hq)) as [<-|I]; [|exact I].
      exfalso. apply (Qlt_irrefl a). apply Fb, Hq.
Qed.

Lemma sym_pairs_S o j : sym_pairs o (S j) = sym_pairs o j ++ [Qopp (qiter j o); qiter j o].
Proof. unfold sym_pairs. rewrite seq_S, flat_map_app. reflexivity. Qed.

Lemma sym_pairs_length o j : List.length (sym_pairs o j) = (2 * j)%nat.
Proof. induction j; [reflexivity|]. rewrite sym_pairs_S, length_app, IHj. simpl. lia. Qed.

Lemma in_sym_pairs o j q :
  In q (sym_pairs o j) <-> exists i, (i < j)%nat /\ (q = Qopp (qiter i o) \/ q = qiter i o).
Proof.
  unfold sym_pairs. rewrite in_flat_map. split.
  - intros (i & Hi & Hq). apply in_seq in Hi. exists i. split; [lia|].
    destruct Hq as [<-|[<-|[]]]; auto.
  - intros (i & Hi & Hq). exists i. split; [apply in_seq; lia|].
    destruct Hq as [->| ->]; simpl; auto.
Qed.

Lemma qsum_sym_pairs o j : (qsum (sym_pairs o j) == 0)%Q.
Proof.
  induction j; [reflexivity|]. rewrite sym_pairs_S. unfold qsum in *.
  rewrite fold_right_app. simpl.
  assert (G : forall l s, (fold_right Qplus s l == fold_right Qplus 0 l + s)%Q).
  { induction l as [|b l IHl]; intros s; simpl; [ring|]. rewrite IHl. ring. }
  rewrite G, IHj. ring.
Qed.

Lemma qsum_perm l1 l2 : Permutation l1 l2 -> (qsum l1 == qsum l2)%Q.
Proof.
  induction 1; unfold qsum in *; simpl.
  - reflexivity.
  - rewrite IHPermutation. reflexivity.
  - ring.
  - rewrite IHPermutation1. exact IHPermutation2.
Qed.

Lemma sym_loop_spec fuel count init o j :
  (count <= List.length init + 2 * j + 2 * fuel)%nat ->
  exists j', (j <= j')%nat /\ (count <= List.length init + 2 * j')%nat /\
    (j' = j \/ List.length init + 2 * (j' - 1) < count)%nat /\
    sym_loop fuel count (init ++ sym_pairs o j) (qiter j o) = ok (init ++ sym_pairs o j').
Proof.
  revert j. induction fuel as [|fuel IH]; intros j B.
  - exists j. simpl. rewrite length_app, sym_pairs_length.
    destruct (Nat.ltb_spec (List.length init + 2 * j) count); [lia|].
    repeat split; auto; lia.
  - simpl. rewrite length_app, sym_pairs_length.
    destruct (Nat.ltb_spec (List.length init + 2 * j) count) as [L|L].
    + destruct (IH (S j)) as (j' & J1 & J2 & J3 & E); [lia|].
      exists j'. rewrite <- app_assoc, <- sym_pairs_S. repeat split; [lia|lia| |exact E].
      right. destruct J3; lia.
    + exists j. repeat split; auto; lia.
Qed.

Lemma qiter_half i : qiter i (1 # 2) = (2 * Z.of_nat i + 1) # 2.
Proof.
  induction i as [|i IH]; [reflexivity|].
  change (qiter (S i) ?o) with (qiter i o + 1)%Q. rewrite IH, Nat2Z.inj_succ.
  unfold Qplus, Qnum, Qden. f_equal; lia.
Qed.

Lemma qiter_one i : qiter i 1 = (Z.of_nat i + 1) # 1.
Proof.
  induction i as [|i IH]; [reflexivity|].
  change (qiter (S i) ?o) with (qiter i o + 1)%Q. rewrite IH, Nat2Z.inj_succ.
  unfold Qplus, Qnum, Qden. f_equal; lia.
Qed.

Lemma map_seq_sorted (f : nat -> Q) :
  (forall i j, (i < j)%nat -> (f i < f j)%Q) ->
  forall n s, StronglySorted Qlt (map f (seq s n)).
Proof.
  intros M n. induction n as [|n IH]; intros s; simpl; constructor; [apply IH|].
  apply Forall_forall. intros q Hq. apply in_map_iff in Hq as (k & <- & Hk).
  apply in_seq in Hk. apply M. lia.
Qed.

Lemma sym_spec_sorted L : StronglySorted Qlt (sym_spec L).
Proof.
  unfold sym_spec. apply map_seq_sorted. intros i j H. unfold Qlt.
  destruct (Nat.even L); cbn [Qnum Qden]; lia.
Qed.

Lemma ForallOrdPairs_app {A} (R : A -> A -> Prop) l1 l2 :
  ForallOrdPairs R l1 -> ForallOrdPairs R l2 ->
  (forall a b, In a l1 -> In b l2 -> R a b) -> ForallOrdPairs R (l1 ++ l2).
Proof.
  induction l1 as [|a l1 IH]; intros P1 P2 X; simpl; [exact P2|].
  inversion P1 as [|? ? Fa Pl]; subst. constructor.
  - apply Forall_app. split; [exact Fa|]. apply Forall_forall. intros b Hb. apply X; [left|]; auto.
  - apply IH; auto. intros u v Hu Hv. apply X; [right|]; auto.
Qed.

Lemma Qeq_same_den a b d : (a # d == b # d)%Q -> a = b.
Proof. unfold Qeq. cbn [Qnum Qden]. intros H. apply Z.mul_reg_r with (Zpos d); [lia|exact H]. Qed.

Section SymPairs.
Variable o : Q.
Variable num : nat -> Z.
Variable d : positive.
Hypothesis Hrep : forall i, qiter i o = num i # d.
Hypothesis Hpos : forall i, 0 < num i.
Hypothesis Hmono : forall i j, (i < j)%nat -> num i < num j.

Lemma in_sym_pairs_num j q :
  In q (sym_pairs o j) <-> exists i, (i < j)%nat /\ (q = (- num i) # d \/ q = num i # d).
Proof.
  rewrite in_sym_pairs. split; intros (i & Hi & Hq); exists i; split; auto;
    rewrite Hrep in *; exact Hq.
Qed.

Lemma sym_pairs_distinct j : ForallOrdPairs (fun a b => ~ (a == b)%Q) (sym_pairs o j).
Proof.
  induction j as [|j IH]; [constructor|]. rewrite sym_pairs_S, Hrep.
  apply ForallOrdPairs_app; [exact IH| |].
  - repeat constructor. intros E. apply Qeq_same_den in E. specialize (Hpos j). cbn in E. lia.
  - intros a b Ha Hb. apply in_sym_pairs_num in Ha as (i & Hi & Ha).
    specialize (Hmono i j Hi). pose proof (Hpos i).
    destruct Hb as [<-|[<-|[]]]; destruct Ha as [->| ->]; intros E;
      apply Qeq_same_den in E; cbn in E; lia.
Qed.

Lemma zero_sym_pairs_distinct j : ForallOrdPairs (fun a b => ~ (a == b)%Q) (0%Q :: sym_pairs o j).
Proof.
  constructor; [|apply sym_pairs_distinct]. apply Forall_forall. intros b Hb E.
  apply in_sym_pairs_num in Hb as (i & _ & Hb). specialize (Hpos i).
  destruct Hb as [->| ->]; unfold Qeq in E; cbn in E; lia.
Qed.

End SymPairs.

Lemma symmetrical_positions_spec L :
  symmetrical_positions L = ok (sym_spec L) /\ (qsum (sym_spec L) == 0)%Q.
Proof.
  destruct L as [|L']; [split; reflexivity|].
  unfold symmetrical_positions. cbv iota.
  remember (S L') as L eqn:HL. assert (NZ : (0 < L)%nat) by lia. clear HL.
  assert (SD : forall l, ForallOrdPairs (fun a b => ~ (a == b)%Q) l ->
            (forall q, In q l <-> In q (sym_spec L)) ->
            sort_by qlt l = sym_spec L /\ (qsum (sym_spec L) == qsum l)%Q).
  { intros l P M. assert (E : sort_by qlt l = sym_spec L).
    { apply sorted_unique; [apply sort_by_sorted, P|apply sym_spec_sorted|].
      intros q. rewrite <- M. split; apply Permutation_in; [|symmetry]; apply sort_by_perm. }
    split; [exact E|]. rewrite <- E. apply qsum_perm, sort_by_perm. }
  destruct (Nat.even L) eqn:Ev.
  - destruct (proj1 (Nat.even_spec L) Ev) as [m Hm].
    change (sym_loop L L [] (1 # 2)) with (sym_loop L L ([] ++ sym_pairs (1 # 2) 0) (qiter 0 (1 # 2))).
    destruct (sym_loop_spec L L [] (1 # 2) 0) as (j' & _ & J2 & J3 & E); [simpl; lia|].
    rewrite E. cbn [Datatypes.length] in J2, J3. assert (Jm : j' = m) by (destruct J3; lia). subst j'.
    simpl app. cbv beta iota delta [bind ok].
    rewrite firstn_all2 by (rewrite sym_pairs_length; lia).
    destruct (SD (sym_pairs (1 # 2) m)) as [S1 S2].
    + apply (sym_pairs_distinct _ (fun i => 2 * Z.of_nat i + 1) 2); [apply qiter_half|intros; lia|intros; lia].
    + intros q. rewrite (in_sym_pairs_num _ (fun i => 2 * Z.of_nat i + 1) 2 qiter_half).
      unfold sym_spec. rewrite Ev, in_map_iff. split.
      * intros (i & Hi & [->| ->]).
        -- exists (m - 1 - i)%nat. split; [f_equal; lia|apply in_seq; lia].
        -- exists (m + i)%nat. split; [f_equal; lia|apply in_seq; lia].
      * intros (k & <- & Hk). apply in_seq in Hk.
        destruct (Nat.lt_ge_cases k m).
        -- exists (m - 1 - k)%nat. split; [lia|left; f_equal; lia].
        -- exists (k - m)%nat. split; [lia|right; f_equal; lia].
    + rewrite S1. split; [reflexivity|]. rewrite S2. apply qsum_sym_pairs.
  - assert (Od : Nat.odd L = true) by (rewrite <- Nat.negb_even, Ev; reflexivity).
    destruct (proj1 (Nat.odd_spec L) Od) as [m Hm].
    change (sym_loop L L [0%Q] 1) with (sym_loop L L ([0%Q] ++ sym_pairs 1 0) (qiter 0 1)).
    destruct (sym_loop_spec L L [0%Q] 1 0) as (j' & _ & J2 & J3 & E); [simpl; lia|].
    rewrite E. cbn [Datatypes.length] in J2, J3. assert (Jm : j' = m) by (destruct J3; lia). subst j'.
    cbv beta iota delta [bind ok].
    rewrite firstn_all2 by (rewrite length_app, sym_pairs_length; simpl; lia).
    assert (Hdiv : (L / 2 = m)%nat).
    { rewrite Hm. replace (2 * m + 1)%nat with (1 + m * 2)%nat by lia.
      rewrite Nat.div_add by lia. reflexivity. }
    destruct (SD ([0%Q] ++ sym_pairs 1 m)) as [S1 S2].
    + apply (zero_sym_pairs_distinct _ (fun i => Z.of_nat i + 1) 1); [apply qiter_one|intros; lia|intros; lia].
    + intros q. simpl app. cbn [In]. rewrite (in_sym_pairs_num _ (fun i => Z.of_nat i + 1) 1 qiter_one).
      unfold sym_spec. rewrite Ev, Hdiv, in_map_iff. split.
      * intros [<-|(i & Hi & [->| ->])].
        -- exists m. split; [f_equal; lia|apply in_seq; lia].
        -- exists (m - 1 - i)%nat. split; [f_equal; lia|apply in_seq; lia].
        -- exists (m + 1 + i)%nat. split; [f_equal; lia|apply in_seq; lia].
      * intros (k & <- & Hk). apply in_seq in Hk.
        destruct (Nat.lt_total k m) as [Lk|[Ek|Gk]].
        -- right. exists (m - 1 - k)%nat. split; [lia|left; f_equal; lia].
        -- left. subst k. f_equal. lia.
        -- right. exists (k - m - 1)%nat. split; [lia|right; f_equal; lia].
    + rewrite S1. split; [reflexivity|]. rewrite S2. unfold qsum. simpl.
      rewrite (qsum_sym_pairs 1 m). reflexivity.
Qed.

Section AssignFold.
Variable F : Dict.t Z Q -> nat * Entry -> Dict.t Z Q.
Variable P : nat -> Q -> Prop.
Variable okE : nat -> Entry -> Prop.
Hypothesis Fset : forall s idx e, exists v, F s (idx, e) = Dict.set s (entry_nid e) v.
Hypothesis Fok : forall s idx e, okE idx e -> exists v, F s (idx, e) = Dict.set s (entry_nid e) v /\ P idx v.

Lemma fold_assign_other l start s k :
  ~ In k (map entry_nid l) ->
  Dict.get (fold_left F (combine (seq start (List.length l)) l) s) k = Dict.get s k.
Proof.
  revert start s. induction l as [|a l IH]; intros start s Hk; simpl; [reflexivity|].
  destruct (Fset s start a) as [v Ev]. rewrite Ev, IH.
  - apply get_set_other. intros E. apply Hk. left. exact E.
  - intros I. apply Hk. right. exact I.
Qed.

Lemma fold_assign_get l start s :
  NoDup (map entry_nid l) ->
  (forall i e, nth_error l i = Some e -> okE (start + i)%nat e) ->
  forall i e, nth_error l i = Some e ->
  exists v, Dict.get (fold_left F (combine (seq start (List.length l)) l) s) (entry_nid e) = Some v /\
            P (start + i)%nat v.
Proof.
  revert start s. induction l as [|a l IH]; intros start s ND Ok i e Hi.
  - destruct i; discriminate.
  - simpl in ND. apply NoDup_cons_iff in ND as [Na ND]. simpl.
    destruct i as [|i].
    + injection Hi as <-. destruct (Fok s start a) as (v & Ev & Pv).
      { rewrite <- (Nat.add_0_r start). apply Ok. reflexivity. }
      exists v. rewrite Ev, fold_assign_other by exact Na. rewrite get_set_same, Nat.add_0_r.
      split; [reflexivity|exact Pv].
    + destruct (IH (S start) (F s (start, a)) ND) with (i := i) (e := e) as (v & G & Pv).
      * intros i' e' H'. replace (S start + i')%nat with (start + S i')%nat by lia. apply Ok, H'.
      * exact Hi.
      * exists v. split; [exact G|]. replace (start + S i)%nat with (S start + i)%nat by lia. exact Pv.
Qed.

End AssignFold.

(** With every entry a child of the root (weight [0]) and at least as many
    positions as entries, the [i]-th entry in sorted order gets the [i]-th
    position. *)
Lemma assign_slots_root root_id entries positions slots :
  NoDup (map entry_nid entries) ->
  Forall (fun e => entry_parent e = Some root_id) entries ->
  (List.length entries <= List.length positions)%nat ->
  forall i e, nth_error (sort_by entry_lt entries) i = Some e ->
  exists v, Dict.get (assign_slots root_id entries positions slots) (entry_nid e) = Some v /\
            (v == nth i positions 0)%Q.
Proof.
  intros ND Fa Len i e Hi.
  pose proof (sort_by_perm entry_lt entries) as Pm.
  unfold assign_slots. cbv zeta.
  match goal with |- exists v, Dict.get (fold_left ?G _ _) _ = _ /\ _ =>
    destruct (fold_assign_get G (fun idx v => (v == nth idx positions 0)%Q)
                (fun idx e => entry_parent e = Some root_id /\ (idx < List.length positions)%nat))
      with (l := sort_by entry_lt entries) (start := 0%nat) (s := slots) (i := i) (e := e)
      as (v & G1 & P1)
  end.
  - intros s idx [[[ps o] nid] pid]. eexists. reflexivity.
  - intros s idx [[[ps o] nid] pid] [Hp Hl]. simpl in Hp. subst pid.
    eexists. split; [reflexivity|]. rewrite Z.eqb_refl.
    destruct (List.length positions) as [|n]; [lia|]. rewrite Nat.min_l by lia. ring.
  - eapply Permutation_NoDup; [apply Permutation_map; symmetry; exact Pm|exact ND].
  - intros i' e' H'. split.
    + rewrite Forall_forall in Fa. apply Fa. eapply Permutation_in; [exact Pm|].
      eapply nth_error_In; exact H'.
    + assert (Hl : (i' < List.length (sort_by entry_lt entries))%nat) by (apply nth_error_Some; congruence).
      rewrite (Permutation_length Pm) in Hl. simpl. lia.
  - exact Hi.
  - exists v. split; [exact G1|exact P1].
Qed.

(** A root [1] with three children [2], [3], [4], at zoom 1. *)
Definition ws_three : Workspace :=
  mkWs [(1, leaf_at 0 0 [2; 3; 4]); (2, leaf_at 0 0 []); (3, leaf_at 0 0 []); (4, leaf_at 0 0 [])]
       [(1, None); (2, Some 1); (3, Some 1); (4, Some 1)] [] 0 (Some 1) 5 1 0 0.

(** C7. Free-position finder: with exactly one node, at (0, 0), and a
    candidate point occupied by it (closer than NODE_W + NODE_MARGIN
    horizontally and NODE_H + NODE_MARGIN vertically), [_find_free_position]
    returns a free point of the grid [candidate + (dx * (NODE_W + HORIZ_GAP),
    dy * (NODE_H + VERT_GAP))] whose Chebyshev radius [max |dx| |dy|] is between
    1 and 8, namely the first free border cell of the ring enumeration (radius
    ascending, then dx, then dy). *)
Theorem find_free_position_single_node (i : Z) (n : Node) (px py : Q)
  (Hx : (x n == 0)%Q) (Hy : (y n == 0)%Q)
  (Hpx : (Qabs px < inject_Z (NODE_W + NODE_MARGIN))%Q)
  (Hpy : (Qabs py < inject_Z (NODE_H + NODE_MARGIN))%Q) :
  let r := find_free_position [(i, n)] px py in
  is_position_free [(i, n)] (fst r) (snd r) = true /\
  exists radius dx dy pre post,
    ring_cells = pre ++ (radius, dx, dy) :: post /\
    1 <= radius <= 8 /\ Z.max (Z.abs dx) (Z.abs dy) = radius /\
    r = ((px + inject_Z dx * inject_Z (NODE_W + HORIZ_GAP))%Q,
         (py + inject_Z dy * inject_Z (NODE_H + VERT_GAP))%Q) /\
    (forall radius' dx' dy', In (radius', dx', dy') pre ->
       Z.max (Z.abs dx') (Z.abs dy') = radius' ->
       is_position_free [(i, n)] (px + inject_Z dx' * inject_Z (NODE_W + HORIZ_GAP))%Q
         (py + inject_Z dy' * inject_Z (NODE_H + VERT_GAP))%Q = false).
Proof.
  intros r.
  change (inject_Z (NODE_W + NODE_MARGIN)) with (178 # 1)%Q in Hpx.
  change (inject_Z (NODE_H + NODE_MARGIN)) with (74 # 1)%Q in Hpy.
  assert (Focc : is_position_free [(i, n)] px py = false).
  { apply not_true_iff_false. rewrite is_position_free_single. intros H; apply H.
    rewrite !Qabs_shift_zero by assumption. split; assumption. }
  subst r. rewrite (find_free_position_ring _ _ _ Focc).
  destruct (first_some (ring_check [(i, n)] px py) ring_cells) as [res|] eqn:Found.
  2:{ exfalso.
      destruct (Qlt_le_dec px 0) as [Hneg | Hpos].
      - apply (first_some_some (ring_check [(i, n)] px py) ring_cells (1, -1, 0)); auto.
        + apply in_ring_cells. lia.
        + unfold ring_check. cbv beta iota zeta.
          replace (negb (Z.abs (-1) =? 1) && negb (Z.abs 0 =? 1))%bool with false by reflexivity.
          match goal with |- context [is_position_free ?a ?b ?c] =>
            destruct (is_position_free a b c) eqn:E end; [discriminate|].
          apply not_true_iff_false in E. exfalso. apply E.
          apply is_position_free_single. rewrite Qabs_shift_zero by assumption.
          intros [H _]. apply Qabs_Qlt_condition in H.
          change (inject_Z (NODE_W + HORIZ_GAP)) with (220 # 1)%Q in H.
          change (inject_Z (-1)) with (-1 # 1)%Q in H. Lqa.lra.
      - apply (first_some_some (ring_check [(i, n)] px py) ring_cells (1, 1, 0)); auto.
        + apply in_ring_cells. lia.
        + unfold ring_check. cbv beta iota zeta.
          replace (negb (Z.abs 1 =? 1) && negb (Z.abs 0 =? 1))%bool with false by reflexivity.
          match goal with |- context [is_position_free ?a ?b ?c] =>
            destruct (is_position_free a b c) eqn:E end; [discriminate|].
          apply not_true_iff_false in E. exfalso. apply E.
          apply is_position_free_single. rewrite Qabs_shift_zero by assumption.
          intros [H _]. apply Qabs_Qlt_condition in H.
          change (inject_Z (NODE_W + HORIZ_GAP)) with (220 # 1)%Q in H.
          change (inject_Z 1) with (1 # 1)%Q in H. Lqa.lra. }
  destruct (first_some_spec _ _ _ Found) as (pre & [[radius dx] dy] & post & Hl & Hc & Hpre).
  assert (Hin : In (radius, dx, dy) ring_cells) by (rewrite Hl; apply in_elt).
  apply in_ring_cells in Hin.
  unfold ring_check in Hc.
  destruct (negb (Z.abs dx =? radius) && negb (Z.abs dy =? radius))%bool eqn:Border;
    [discriminate|].
  match type of Hc with context [is_position_free ?a ?b ?c] =>
    destruct (is_position_free a b c) eqn:Free end; [|discriminate].
  inversion Hc; subst res. cbn [fst snd]. split; [exact Free|].
  exists radius, dx, dy, pre, post. split; [exact Hl|]. split; [lia|].
  split.
  { rewrite andb_false_iff, !negb_false_iff, !Z.eqb_eq in Border. lia. }
  split; [reflexivity|].
  intros radius' dx' dy' Hin' Hmax. specialize (Hpre _ Hin'). unfold ring_check in Hpre. cbv beta iota zeta in Hpre.
  assert (B : (negb (Z.abs dx' =? radius') && negb (Z.abs dy' =? radius'))%bool = false).
  { rewrite andb_false_iff, !negb_false_iff, !Z.eqb_eq. lia. }
  rewrite B in Hpre.
  match type of Hpre with context [is_position_free ?a ?b ?c] =>
    destruct (is_position_free a b c) eqn:F' end; [discriminate | reflexivity].
Qed.

(** C2. Edge candidate search: for every edge [_render_edge] renders, the
    offsets tried are base+0, base+20, base-20, ..., base+80, base-80 in this
    order (base = the remembered offset of (pid, cid), 0 if none); the offset
    kept is the first whose sampled curve crosses no edge drawn before in the
    pass (edges sharing an endpoint excepted), or base-80 when every candidate
    crosses; it is stored under (pid, cid) in the edge-offset memory and its
    polyline is appended to the drawn paths.  This holds whatever the exit-point
    and control-point geometry. *)
Theorem render_edge_candidate_search ep cp ws pid cid drawn ws' drawn'
  (H : render_edge ep cp ws pid cid drawn = ok (ws', drawn')) :
  let base := match Dict.get (edge_offsets ws) (pid, cid) with Some o => o | None => 0%Q end in
  edge_offset_candidates base =
    [base + 0; base + 20; base + -20; base + 40; base + -40;
     base + 60; base + -60; base + 80; base + -80]%Q /\
  exists px py cx cy chosen,
    node_center ws pid = ok (px, py) /\ node_center ws cid = ok (cx, cy) /\
    let '(start, end_) := edge_ends ep ws pid cid px py cx cy in
    let curve o := let '(cp1, cp2) := cp ws pid cid start end_ o in
                   sample_edge_points start cp1 cp2 end_ 32 in
    let crosses o := path_intersects (curve o) drawn start end_ in
    ((exists pre post, edge_offset_candidates base = pre ++ chosen :: post /\
        forallb crosses pre = true /\ crosses chosen = false)
     \/ (forallb crosses (edge_offset_candidates base) = true /\ chosen = (base + -80)%Q)) /\
    ws' = set_edge_offsets ws (Dict.set (edge_offsets ws) (pid, cid) chosen) /\
    drawn' = drawn ++ [mkPath (curve chosen) start end_].
Proof.
  intros base. split; [apply edge_offset_candidates_eq|].
  unfold render_edge in H.
  destruct (node_center ws pid) as [[px py]|e] eqn:Cp; [|discriminate]. simpl in H.
  destruct (node_center ws cid) as [[cx cy]|e] eqn:Cc; [|discriminate]. simpl in H.
  destruct (edge_ends ep ws pid cid px py cx cy) as [start end_] eqn:Ends.
  fold base in H.
  destruct (first_some (try_offset cp ws pid cid start end_ drawn) (edge_offset_candidates base))
    as [[pts o]|] eqn:F.
  - exists px, py, cx, cy, o. split; [reflexivity|]. split; [reflexivity|].
    rewrite Ends.
    destruct (first_some_spec _ _ _ F) as (pre & a & post & Hl & Ha & Hpre).
    unfold try_offset in Ha.
    destruct (cp ws pid cid start end_ a) as [c1 c2] eqn:Ecp.
    destruct (path_intersects _ drawn start end_) eqn:Hx; [discriminate|].
    inversion Ha; subst a pts. inversion H; subst ws' drawn'.
    split; [|split; [reflexivity|]].
    + left. exists pre, post. split; [exact Hl|]. split.
      * apply forallb_forall. intros a Hin. specialize (Hpre a Hin). unfold try_offset in Hpre.
        destruct (cp ws pid cid start end_ a) as [d1 d2].
        destruct (path_intersects (sample_edge_points start d1 d2 end_ 32) drawn start end_);
          [reflexivity|discriminate].
      * rewrite Ecp. exact Hx.
    + rewrite Ecp. reflexivity.
  - exists px, py, cx, cy, (base + -80)%Q. split; [reflexivity|]. split; [reflexivity|].
    rewrite Ends.
    rewrite edge_offset_candidates_eq in H. cbn [last] in H.
    destruct (cp ws pid cid start end_ (base + -80)%Q) as [c1 c2] eqn:Ecp.
    inversion H; subst ws' drawn'.
    split; [|split; [reflexivity | rewrite Ecp; reflexivity]].
    right. split; [|reflexivity].
    apply forallb_forall. intros a Hin. pose proof (first_some_none _ _ F a Hin) as Hn.
    unfold try_offset in Hn. destruct (cp ws pid cid start end_ a) as [d1 d2].
    destruct (path_intersects (sample_edge_points start d1 d2 end_ 32) drawn start end_);
      [reflexivity|discriminate].
Qed.


Lemma find_free_position_single_node_witness :
  (x (leaf_at 0 0 []) == 0)%Q /\ (y (leaf_at 0 0 []) == 0)%Q /\
  (Qabs 0 < inject_Z (NODE_W + NODE_MARGIN))%Q /\ (Qabs 0 < inject_Z (NODE_H + NODE_MARGIN))%Q /\
  let r := find_free_position [(1, leaf_at 0 0 [])] 0 0 in
  is_position_free [(1, leaf_at 0 0 [])] (fst r) (snd r) = true /\
  exists radius dx dy pre post,
    ring_cells = pre ++ (radius, dx, dy) :: post /\
    1 <= radius <= 8 /\ Z.max (Z.abs dx) (Z.abs dy) = radius /\
    r = ((0 + inject_Z dx * inject_Z (NODE_W + HORIZ_GAP))%Q,
         (0 + inject_Z dy * inject_Z (NODE_H + VERT_GAP))%Q) /\
    (forall radius' dx' dy', In (radius', dx', dy') pre ->
       Z.max (Z.abs dx') (Z.abs dy') = radius' ->
       is_position_free [(1, leaf_at 0 0 [])] (0 + inject_Z dx' * inject_Z (NODE_W + HORIZ_GAP))%Q
         (0 + inject_Z dy' * inject_Z (NODE_H + VERT_GAP))%Q = false).
Proof.
  assert (H1 : (x (leaf_at 0 0 []) == 0)%Q) by reflexivity.
  assert (H2 : (y (leaf_at 0 0 []) == 0)%Q) by reflexivity.
  assert (H3 : (Qabs 0 < inject_Z (NODE_W + NODE_MARGIN))%Q) by (vm_compute; reflexivity).
  assert (H4 : (Qabs 0 < inject_Z (NODE_H + NODE_MARGIN))%Q) by (vm_compute; reflexivity).
  split; [exact H1|split; [exact H2|split; [exact H3|split; [exact H4|]]]].
  exact (find_free_position_single_node 1 (leaf_at 0 0 []) 0 0 H1 H2 H3 H4).
Defined.

Lemma render_edge_candidate_search_witness :
  exists ws' drawn',
  render_edge center_exit end_controls ws_pair 1 2 [] = ok (ws', drawn') /\
  let ep := center_exit in let cp := end_controls in let ws := ws_pair in
  let pid := 1 in let cid := 2 in let drawn := @nil DrawnPath in
  let base := match Dict.get (edge_offsets ws) (pid, cid) with Some o => o | None => 0%Q end in
  edge_offset_candidates base =
    [base + 0; base + 20; base + -20; base + 40; base + -40;
     base + 60; base + -60; base + 80; base + -80]%Q /\
  exists px py cx cy chosen,
    node_center ws pid = ok (px, py) /\ node_center ws cid = ok (cx, cy) /\
    let '(start, end_) := edge_ends ep ws pid cid px py cx cy in
    let curve o := let '(cp1, cp2) := cp ws pid cid start end_ o in
                   sample_edge_points start cp1 cp2 end_ 32 in
    let crosses o := path_intersects (curve o) drawn start end_ in
    ((exists pre post, edge_offset_candidates base = pre ++ chosen :: post /\
        forallb crosses pre = true /\ crosses chosen = false)
     \/ (forallb crosses (edge_offset_candidates base) = true /\ chosen = (base + -80)%Q)) /\
    ws' = set_edge_offsets ws (Dict.set (edge_offsets ws) (pid, cid) chosen) /\
    drawn' = drawn ++ [mkPath (curve chosen) start end_].
Proof.
  destruct (render_edge center_exit end_controls ws_pair 1 2 []) as [[ws' drawn']|e] eqn:E.
  - exists ws', drawn'. split; [reflexivity|].
    exact (render_edge_candidate_search center_exit end_controls ws_pair 1 2 [] ws' drawn' E).
  - vm_compute in E. discriminate.
Defined.

(** C8 (code bug). Cycle safety: on a workspace whose node 1 has the single
    child 2 and node 2 the single child 1, [_compute_depths],
    [_assign_directions] and the [dfs] of [_collect_subtree] run out of any
    step budget, and so does [auto_layout] with root 1; their sibling
    [_node_depth], which keeps a visited set, terminates on every node. *)
Theorem cyclic_children_no_termination ep cp cw ch ws n1 n2
  (H1 : Dict.get (nodes ws) 1 = Some n1) (Hc1 : children n1 = [2])
  (H2 : Dict.get (nodes ws) 2 = Some n2) (Hc2 : children n2 = [1])
  (Hroot : root_id ws = Some 1) :
  (forall fuel, compute_depths fuel ws 1 = raise OutOfFuel) /\
  (forall fuel, assign_directions fuel ws 1 = raise OutOfFuel) /\
  (forall fuel, collect_subtree fuel ws 1 = raise OutOfFuel) /\
  (forall fuel, auto_layout ep cp cw ch fuel ws = raise OutOfFuel) /\
  (forall nid, exists d, node_depth ws nid = ok d).
Proof.
  assert (L1 := lookup_get _ _ _ H1). assert (L2 := lookup_get _ _ _ H2).
  assert (D : forall fuel (d : Dict.t Z nat),
            ((exists v, Dict.get d 1 = Some v) -> depths_loop ws fuel d [1] = raise OutOfFuel) /\
            ((exists v, Dict.get d 2 = Some v) -> depths_loop ws fuel d [2] = raise OutOfFuel)).
  { induction fuel as [|fuel IH]; intros d; split; intros [v G]; try reflexivity; simpl.
    - rewrite L1. simpl. rewrite Hc1. simpl. rewrite (lookup_get _ _ _ G). simpl.
      apply (IH _). eexists. apply get_set_same.
    - rewrite L2. simpl. rewrite Hc2. simpl. rewrite (lookup_get _ _ _ G). simpl.
      apply (IH _). eexists. apply get_set_same. }
  assert (A : forall fuel (d : Dict.t Z Z),
            directions_loop ws fuel d [1] = raise OutOfFuel /\
            directions_loop ws fuel d [2] = raise OutOfFuel).
  { induction fuel as [|fuel IH]; intros d; split; try reflexivity; simpl.
    - rewrite L1. simpl. rewrite Hc1. apply IH.
    - rewrite L2. simpl. rewrite Hc2. apply IH. }
  assert (C : forall fuel acc, collect_dfs ws fuel acc 1 = raise OutOfFuel /\
                               collect_dfs ws fuel acc 2 = raise OutOfFuel).
  { induction fuel as [|fuel IH]; intros acc; split; try reflexivity; simpl.
    - rewrite L1. simpl. rewrite Hc1. simpl. rewrite (proj2 (IH _)). reflexivity.
    - rewrite L2. simpl. rewrite Hc2. simpl. rewrite (proj1 (IH _)). reflexivity. }
  assert (AD : forall fuel, assign_directions fuel ws 1 = raise OutOfFuel).
  { intros fuel. unfold assign_directions. rewrite L1. simpl. rewrite Hc1. simpl.
    rewrite (proj2 (A _ _)). reflexivity. }
  split; [|split; [exact AD|split; [|split]]].
  - intros fuel. unfold compute_depths. rewrite (proj1 (D fuel _)); [reflexivity|].
    exists O. reflexivity.
  - intros fuel. apply C.
  - intros fuel. unfold auto_layout.
    assert (K : In 1 (Dict.keys (nodes ws))) by (eapply get_in_keys; eauto).
    destruct (Dict.keys (nodes ws)) as [|k ks]; [destruct K|].
    rewrite Hroot. simpl.
    destruct (from_canvas_point ws _ _). rewrite AD. reflexivity.
  - apply node_depth_terminates.
Qed.
Lemma cyclic_children_no_termination_witness :
  load_state doc_cycle = ok ws_cycle /\
  exists n1 n2, Dict.get (nodes ws_cycle) 1 = Some n1 /\ children n1 = [2] /\
    Dict.get (nodes ws_cycle) 2 = Some n2 /\ children n2 = [1] /\ root_id ws_cycle = Some 1 /\
  ((forall fuel, compute_depths fuel ws_cycle 1 = raise OutOfFuel) /\
   (forall fuel, assign_directions fuel ws_cycle 1 = raise OutOfFuel) /\
   (forall fuel, collect_subtree fuel ws_cycle 1 = raise OutOfFuel) /\
   (forall fuel, auto_layout center_exit end_controls 800 600 fuel ws_cycle = raise OutOfFuel) /\
   (forall nid, exists d, node_depth ws_cycle nid = ok d)).
Proof.
  split; [vm_compute; reflexivity|].
  eexists; eexists.
  assert (H1 : Dict.get (nodes ws_cycle) 1 = Some (mkNode "" 0 0 [2] (Some "#FFB3BE"%string) false None None)) by reflexivity.
  assert (H2 : Dict.get (nodes ws_cycle) 2 = Some (mkNode "" 0 0 [1] (Some "#FFB3BE"%string) false None None)) by reflexivity.
  assert (Hc1 : children (mkNode "" 0 0 [2] (Some "#FFB3BE"%string) false None None) = [2]) by reflexivity.
  assert (Hc2 : children (mkNode "" 0 0 [1] (Some "#FFB3BE"%string) false None None) = [1]) by reflexivity.
  assert (Hr : root_id ws_cycle = Some 1) by reflexivity.
  split; [exact H1|split; [exact Hc1|split; [exact H2|split; [exact Hc2|split; [exact Hr|]]]]].
  exact (cyclic_children_no_termination center_exit end_controls 800 600 ws_cycle _ _ H1 Hc1 H2 Hc2 Hr).
Defined.






(** C9 (amended): create-node gives the new node the next palette color
    [PALETTE_COLORS[palette_index mod 10]] and sets its custom flag to
    true, so a later auto-layout keeps that fill. *)
Theorem create_node_custom_fill measure ep cp ws txt px py ws' nid
  (H : create_node measure ep cp ws txt px py = ok (ws', nid)) :
  exists n, Dict.get (nodes ws') nid = Some n /\ custom n = true /\
    fill n = Some (nth (Z.to_nat (palette_index ws mod 10)) PALETTE_COLORS ""%string) /\
    forall cw ch fuel ws'', auto_layout ep cp cw ch fuel ws' = ok ws'' ->
      exists n', Dict.get (nodes ws'') nid = Some n' /\ custom n' = true /\ fill n' = fill n.
Proof.
  destruct (create_node_new_node _ _ _ _ _ _ _ _ _ H) as [n [G [Cu F]]].
  exists n. split; [exact G|]. split; [exact Cu|]. split; [exact F|].
  intros cw ch fuel ws'' A. destruct (auto_layout_keeps_frame _ _ _ _ _ _ _ A) as [_ [N _]].
  destruct (N nid n G) as [n' [G' [_ [_ [_ [_ [Cu' F']]]]]]].
  exists n'. split; [exact G'|]. split; [congruence|]. exact (F' Cu).
Qed.

Lemma create_node_custom_fill_witness :
  let r := res_or (create_node measure_min center_exit end_controls ws_pair "Root"%string 0 0) (ws_pair, 0) in
  create_node measure_min center_exit end_controls ws_pair "Root"%string 0 0 = ok r /\
  exists n, Dict.get (nodes (fst r)) (snd r) = Some n /\ custom n = true /\
    fill n = Some (nth (Z.to_nat (palette_index ws_pair mod 10)) PALETTE_COLORS ""%string) /\
    forall cw ch fuel ws'', auto_layout center_exit end_controls cw ch fuel (fst r) = ok ws'' ->
      exists n', Dict.get (nodes ws'') (snd r) = Some n' /\ custom n' = true /\ fill n' = fill n.
Proof.
  intros r. assert (E : create_node measure_min center_exit end_controls ws_pair "Root"%string 0 0 = ok r)
    by (vm_compute; reflexivity).
  split; [exact E|]. destruct r as [w n]. exact (create_node_custom_fill _ _ _ _ _ _ _ w n E).
Defined.

(** C9, counterexample: the node that create-node adds to [ws_pair] has the
    custom flag true and the third palette color. *)
Lemma create_node_custom_fill_cex :
  exists ws' nid n, create_node measure_min center_exit end_controls ws_pair "Root"%string 0 0 = ok (ws', nid) /\
    Dict.get (nodes ws') nid = Some n /\ custom n = true /\ fill n = Some "#FFF49A"%string.
Proof.
  set (r := res_or (create_node measure_min center_exit end_controls ws_pair "Root"%string 0 0) (ws_pair, 0)).
  exists (fst r), (snd r), (res_or (Dict.lookup (nodes (fst r)) (snd r)) (leaf_at 0 0 [])).
  split; [vm_compute; reflexivity|]. split; [vm_compute; reflexivity|]. split; vm_compute; reflexivity.
Qed.

(** C6: the new scale is [old * factor] clamped to [[0.4, 2.5]]; a change
    below [1e-3] leaves the workspace as it is; otherwise the new scale is
    stored and the logical point under the screen origin is the same before
    and after, exactly. *)
Theorem zoom_to_cursor ep cp ws factor cx cy ws'
  (Hs : (0 < scale ws)%Q) (H : zoom ep cp ws factor (cx, cy) = ok ws') :
  let new_scale := Qmax ZOOM_MIN (Qmin ZOOM_MAX (scale ws * factor)) in
  ((ZOOM_MIN <= new_scale <= ZOOM_MAX) /\
   (Qabs (new_scale - scale ws) < 1 # 1000 -> ws' = ws) /\
   (~ Qabs (new_scale - scale ws) < 1 # 1000 ->
      scale ws' = new_scale /\
      fst (from_canvas_point ws' cx cy) == fst (from_canvas_point ws cx cy) /\
      snd (from_canvas_point ws' cx cy) == snd (from_canvas_point ws cx cy)))%Q.
Proof.
  intros new_scale.
  assert (B : (ZOOM_MIN <= new_scale <= ZOOM_MAX)%Q).
  { unfold new_scale. split; [apply Q.le_max_l|].
    apply Q.max_lub; [unfold ZOOM_MIN, ZOOM_MAX, Qle; simpl; lia | apply Q.le_min_l]. }
  split; [exact B|]. unfold zoom in H. fold new_scale in H.
  destruct (qlt (Qabs (new_scale - scale ws)) (1 # 1000)) eqn:L.
  - apply qlt_iff in L. split; [intros _; inversion H; reflexivity|]. intros N. contradiction.
  - split; [intros L'; apply qlt_iff in L'; congruence|]. intros _.
    destruct (redraw_frame ep cp _ _ ws' (layout_frame_refl _) H) as [_ [_ [_ [_ [_ [_ [Sc [Ox Oy]]]]]]]].
    simpl in Sc, Ox, Oy.
    assert (Nz : ~ scale ws == 0) by (intros E; rewrite E in Hs; apply (Qlt_irrefl 0); exact Hs).
    assert (Nn : ~ new_scale == 0).
    { intros E. destruct B as [B _]. rewrite E in B. unfold ZOOM_MIN, Qle in B. simpl in B. lia. }
    assert (Eo : Qeq_bool (scale ws) 0 = false) by (apply not_true_iff_false; intros E; apply Nz, Qeq_bool_eq, E).
    assert (En : Qeq_bool new_scale 0 = false) by (apply not_true_iff_false; intros E; apply Nn, Qeq_bool_eq, E).
    rewrite Eo in Ox, Oy. split; [exact Sc|].
    unfold from_canvas_point. rewrite Sc, Ox, Oy, En, Eo. simpl. split; field; auto.
Qed.

Lemma zoom_to_cursor_witness :
  let ws' := res_or (zoom center_exit end_controls ws_pair (11 # 10) (100, 50)%Q) ws_pair in
  (0 < scale ws_pair)%Q /\ zoom center_exit end_controls ws_pair (11 # 10) (100, 50)%Q = ok ws' /\
  let new_scale := Qmax ZOOM_MIN (Qmin ZOOM_MAX (scale ws_pair * (11 # 10))) in
  ((ZOOM_MIN <= new_scale <= ZOOM_MAX) /\
   (Qabs (new_scale - scale ws_pair) < 1 # 1000 -> ws' = ws_pair) /\
   (~ Qabs (new_scale - scale ws_pair) < 1 # 1000 ->
      scale ws' = new_scale /\
      fst (from_canvas_point ws' 100 50) == fst (from_canvas_point ws_pair 100 50) /\
      snd (from_canvas_point ws' 100 50) == snd (from_canvas_point ws_pair 100 50)))%Q.
Proof.
  intros ws'.
  assert (Hs : (0 < scale ws_pair)%Q) by (vm_compute; reflexivity).
  assert (E : zoom center_exit end_controls ws_pair (11 # 10) (100, 50)%Q = ok ws') by (vm_compute; reflexivity).
  split; [exact Hs|]. split; [exact E|].
  exact (zoom_to_cursor center_exit end_controls ws_pair (11 # 10) 100%Q 50%Q ws' Hs E).
Defined.






